(** * Distributed compute core: nodes, task scheduler, peer heartbeat

    A shallow embedding of the three TypeScript classes of the
    [distributed] module ([ComputeNode], [TaskScheduler], [Communication])
    together with the properties their specification states about them.

    Conventions of the embedding.
    - A JavaScript object that is shared by reference and mutated (a [Task],
      a [capabilities] array, a [ComputeNode] held by the registry) lives in
      a typed heap: a list indexed by location; allocation appends.  Objects
      that a class owns exclusively and never hands out ([this.info],
      [this.tasks], [this.peers]) are fields of the class record.
    - A JavaScript [Map] whose iteration order can be observed (the node
      registry, a node's tasks, the peer table) is an association list in
      insertion order; one that is only looked up, counted or updated
      pointwise (results, pending messages) is a [gmap].
    - An [async] method is split at its [await]: the part that runs
      synchronously, and the continuation run when the awaited promise
      settles, with the way it settled as an argument.
    - [number]s that hold counts, priorities and millisecond time stamps are
      integers; the load, a quotient of two small counts, is a rational.
    - [Date.now()], [Math.random()] and callbacks are inputs of the step
      that consults them. *)

From Stdlib Require Import ZArith QArith Qround Lia Sorted.
From stdpp Require Import gmap strings list fin_maps pretty.

Close Scope Q_scope.
Open Scope Z_scope.
Set Warnings "-clear-no-such-hyp".

(** ** JavaScript values *)

Module JS.

(** The fragment of JavaScript values the module produces and stores. *)
#[warnings="-register-all"]
Inductive Value :=
| Undefined
| Bool (b : bool)
| Num (z : Z)
| Str (s : string)
| Obj (fields : list (string * Value)).

(** How a promise settles; a rejection carries the message of its [Error]. *)
Inductive Settled (A : Type) :=
| Resolved (a : A)
| Rejected (message : string).

Arguments Resolved {A} a.
Arguments Rejected {A} message.

(** [x || d] on an optional number: [undefined] and [0] are falsy. *)
Definition or_default (x : option Z) (d : Z) : Z :=
  match x with
  | Some v => if v =? 0 then d else v
  | None => d
  end.

(** A location of a typed heap. *)
Definition loc := nat.

(** [new]: the object goes to a location no reference held before. *)
Definition alloc {A} (h : list A) (x : A) : loc * list A :=
  (length h, h ++ [x]).

(** [Array.prototype.indexOf] followed by [splice(index, 1)] when found. *)
Fixpoint remove_first {A} `{EqDecision A} (x : A) (l : list A) : list A :=
  match l with
  | [] => []
  | y :: r => if decide (x = y) then r else y :: remove_first x r
  end.

(** An insertion-ordered [Map] with string keys: [set] keeps the place of a
    key already present, [delete] reports whether the key was there. *)
Fixpoint Map_set {V} (k : string) (v : V) (m : list (string * V)) : list (string * V) :=
  match m with
  | [] => [(k, v)]
  | (k', v') :: r => if decide (k = k') then (k, v) :: r else (k', v') :: Map_set k v r
  end.

Definition Map_has {V} (k : string) (m : list (string * V)) : bool :=
  bool_decide (k ∈ m.*1).

Definition Map_delete {V} (k : string) (m : list (string * V)) : list (string * V) :=
  List.filter (λ kv, negb (bool_decide (kv.1 = k))) m.

Fixpoint Map_get {V} (k : string) (m : list (string * V)) : option V :=
  match m with
  | [] => None
  | (k', v) :: r => if decide (k = k') then Some v else Map_get k r
  end.

(** Updating every value in place, as a [for ... of map.entries()] loop
    that writes to the entries does. *)
Definition Map_map {V} (f : V -> V) (m : list (string * V)) : list (string * V) :=
  (λ kv, (kv.1, f kv.2)) <$> m.

(** [a < b] on numbers that are rationals. *)
Definition lt (a b : Q) : bool := negb (Qle_bool b a).

End JS.

(** ** compute-node.ts *)

Module compute_node.

Inductive NodeStatus := idle | busy | offline.

#[global] Instance NodeStatus_eq_dec : EqDecision NodeStatus.
Proof. solve_decision. Defined.

Module NodeInfo.
Record t := mk {
  id : string;
  address : string;
  port : Z;
  status : NodeStatus;
  capabilities : JS.loc;   (* reference to a string array *)
  load : Q
}.
Definition with_status (s : NodeStatus) (i : t) : t :=
  mk (id i) (address i) (port i) s (capabilities i) (load i).
Definition with_load (l : Q) (i : t) : t :=
  mk (id i) (address i) (port i) (status i) (capabilities i) l.
End NodeInfo.

Module Task.
Record t := mk {
  id : string;
  type : string;
  payload : JS.Value;
  priority : Z;
  createdAt : Z;
  assignedTo : option string
}.
Definition with_priority (p : Z) (x : t) : t :=
  mk (id x) (type x) (payload x) p (createdAt x) (assignedTo x).
Definition with_assignedTo (a : string) (x : t) : t :=
  mk (id x) (type x) (payload x) (priority x) (createdAt x) (Some a).
End Task.

#[global] Instance Task_inhabited : Inhabited Task.t :=
  populate (Task.mk "" "" JS.Undefined 0 0 None).

(** The private state of a [ComputeNode]. *)
Record ComputeNode := mkNode {
  info : NodeInfo.t;
  tasks : list (string * JS.loc);   (* Map<string, Task>, values by reference *)
  maxConcurrentTasks : nat
}.

Definition with_info (f : NodeInfo.t -> NodeInfo.t) (n : ComputeNode) : ComputeNode :=
  mkNode (f (info n)) (tasks n) (maxConcurrentTasks n).
Definition with_tasks (m : list (string * JS.loc)) (n : ComputeNode) : ComputeNode :=
  mkNode (info n) m (maxConcurrentTasks n).

(** [constructor(id, address, port, capabilities)]: the array passed in is
    stored as it is, not copied. *)
Definition new (id address : string) (port : Z) (capabilities : JS.loc) : ComputeNode :=
  mkNode (NodeInfo.mk id address port idle capabilities 0%Q) [] 4.

(** [getInfo()]: [{ ...this.info }], a fresh object with the same field
    values; the [capabilities] field is copied as a reference. *)
Definition getInfo (n : ComputeNode) : NodeInfo.t :=
  let i := info n in
  NodeInfo.mk (NodeInfo.id i) (NodeInfo.address i) (NodeInfo.port i)
    (NodeInfo.status i) (NodeInfo.capabilities i) (NodeInfo.load i).

Definition setStatus (s : NodeStatus) (n : ComputeNode) : ComputeNode :=
  with_info (NodeInfo.with_status s) n.

Definition canAcceptTask (n : ComputeNode) : bool :=
  negb (bool_decide (NodeInfo.status (info n) = offline))
  && bool_decide (length (tasks n) < maxConcurrentTasks n)%nat.

(** [this.info.load = this.tasks.size / this.maxConcurrentTasks]. *)
Definition updateLoad (n : ComputeNode) : ComputeNode :=
  with_info
    (NodeInfo.with_load
       (inject_Z (Z.of_nat (length (tasks n))) / inject_Z (Z.of_nat (maxConcurrentTasks n)))%Q)
    n.

(** [assignTask(task)], over the heap of task objects: the task is written
    to ([assignedTo]) and stored under the id it has at that moment. *)
Definition assignTask (th : list Task.t) (n : ComputeNode) (task : JS.loc)
  : bool * ComputeNode * list Task.t :=
  if negb (canAcceptTask n) then (false, n, th)
  else
    let th1 := <[task := Task.with_assignedTo (NodeInfo.id (info n)) (th !!! task)]> th in
    let n1 := with_tasks (JS.Map_set (Task.id (th1 !!! task)) task (tasks n)) n in
    let n2 := updateLoad n1 in
    let n3 := if bool_decide (0 < length (tasks n2))%nat then setStatus busy n2 else n2 in
    (true, n3, th1).

(** [processTask]: the closed switch over the type tag.  Each handler waits
    ([delay], in milliseconds) and then resolves; none of them rejects. *)
Definition processTask (t : Task.t) : Z * JS.Value :=
  let ty := Task.type t in
  if bool_decide (ty = "inference") then
    (100, JS.Obj [("type", JS.Str "inference"); ("result", Task.payload t)])
  else if bool_decide (ty = "training") then
    (500, JS.Obj [("type", JS.Str "training"); ("result", Task.payload t)])
  else if bool_decide (ty = "data_processing") then
    (50, JS.Obj [("type", JS.Str "data_processing"); ("result", Task.payload t)])
  else
    (0, JS.Obj [("success", JS.Bool true); ("taskId", JS.Str (Task.id t))]).

(** [executeTask(taskId)] up to its [await]: the lookup, failing fast. *)
Definition executeTask_begin (n : ComputeNode) (taskId : string) : JS.Settled JS.loc :=
  match JS.Map_get taskId (tasks n) with
  | None => JS.Rejected ("Task " +:+ taskId +:+ " not found")
  | Some task => JS.Resolved task
  end.

(** [executeTask(taskId)] after its [await]: the [try] continuation when
    the handler resolved, the [catch] block when it rejected. *)
Definition executeTask_settle (n : ComputeNode) (taskId : string)
    (outcome : JS.Settled JS.Value) : ComputeNode * JS.Settled JS.Value :=
  match outcome with
  | JS.Resolved result =>
      let n1 := updateLoad (with_tasks (JS.Map_delete taskId (tasks n)) n) in
      let n2 := if bool_decide (length (tasks n1) = 0)%nat then setStatus idle n1 else n1 in
      (n2, JS.Resolved result)
  | JS.Rejected error =>
      let n1 := updateLoad (with_tasks (JS.Map_delete taskId (tasks n)) n) in
      (n1, JS.Rejected error)
  end.

Definition getTasks (n : ComputeNode) : list JS.loc :=
  (tasks n).*2.

Definition getTaskCount (n : ComputeNode) : nat := length (tasks n).

Definition getLoad (n : ComputeNode) : Q := NodeInfo.load (info n).

(** [this.info.capabilities.includes(capability)], over the heap of arrays. *)
Definition hasCapability (ah : list (list string)) (n : ComputeNode) (capability : string) : bool :=
  bool_decide (capability ∈ ah !!! NodeInfo.capabilities (info n)).

Definition addCapability (ah : list (list string)) (n : ComputeNode) (capability : string)
  : list (list string) :=
  if hasCapability ah n capability then ah
  else
    let a := NodeInfo.capabilities (info n) in
    <[a := (ah !!! a) ++ [capability]]> ah.

Definition removeCapability (ah : list (list string)) (n : ComputeNode) (capability : string)
  : list (list string) :=
  let a := NodeInfo.capabilities (info n) in
  <[a := JS.remove_first capability (ah !!! a)]> ah.

(** [createComputeNode(id, address = 'localhost', port = 8080,
    capabilities = [])]: a default applies where the argument is
    [undefined]; the default array is a fresh one. *)
Definition createComputeNode (ah : list (list string)) (id : string)
    (address : option string) (port : option Z) (capabilities : option JS.loc)
  : ComputeNode * list (list string) :=
  let '(caps, ah1) :=
    match capabilities with
    | Some a => (a, ah)
    | None => JS.alloc ah []
    end in
  (new id (default "localhost" address) (default 8080 port) caps, ah1).

(** The operations a holder of the node can perform on it.  A call of
    [executeTask] that passes its lookup stays in flight until its handler
    settles; [OpSettle k] is the continuation of the [k]-th such call. *)
Inductive NodeOp :=
| OpSetStatus (s : NodeStatus)
| OpAssignTask (task : JS.loc)
| OpExecuteTask (taskId : string)
| OpSettle (k : nat) (outcome : JS.Settled JS.Value)
| OpAddCapability (c : string)
| OpRemoveCapability (c : string).

(** A node in its environment: the heaps of the objects it shares, and the
    calls of [executeTask] made so far, each with the id it was given and
    whether it has settled. *)
Record NodeWorld := mkNodeWorld {
  nw_node : ComputeNode;
  nw_tasks : list Task.t;
  nw_arrays : list (list string);
  nw_calls : list (string * bool)
}.

Definition node_step (w : NodeWorld) (op : NodeOp) : NodeWorld :=
  match op with
  | OpSetStatus s =>
      mkNodeWorld (setStatus s (nw_node w)) (nw_tasks w) (nw_arrays w) (nw_calls w)
  | OpAssignTask task =>
      let '(_, n, th) := assignTask (nw_tasks w) (nw_node w) task in
      mkNodeWorld n th (nw_arrays w) (nw_calls w)
  | OpExecuteTask taskId =>
      match executeTask_begin (nw_node w) taskId with
      | JS.Resolved _ =>
          mkNodeWorld (nw_node w) (nw_tasks w) (nw_arrays w) (nw_calls w ++ [(taskId, false)])
      | JS.Rejected _ => w
      end
  | OpSettle k outcome =>
      match nw_calls w !! k with
      | Some (taskId, false) =>
          mkNodeWorld (executeTask_settle (nw_node w) taskId outcome).1 (nw_tasks w)
                      (nw_arrays w) (<[k := (taskId, true)]> (nw_calls w))
      | _ => w
      end
  | OpAddCapability c =>
      mkNodeWorld (nw_node w) (nw_tasks w)
                  (addCapability (nw_arrays w) (nw_node w) c) (nw_calls w)
  | OpRemoveCapability c =>
      mkNodeWorld (nw_node w) (nw_tasks w)
                  (removeCapability (nw_arrays w) (nw_node w) c) (nw_calls w)
  end.

Definition node_run (w : NodeWorld) (ops : list NodeOp) : NodeWorld :=
  foldl node_step w ops.

(** A node just constructed, with nothing in flight. *)
Definition node_init (n : ComputeNode) (th : list Task.t) (ah : list (list string)) : NodeWorld :=
  mkNodeWorld n th ah [].

(** Whether an operation is a call of [setStatus]. *)
Definition is_setStatus (op : NodeOp) : bool :=
  match op with
  | OpSetStatus _ => true
  | _ => false
  end.

(** Without [setStatus], a node is never offline and is busy while it holds
    a task. *)
Definition busy_while_loaded (n : ComputeNode) : Prop :=
  NodeInfo.status (info n) ≠ offline
  ∧ (tasks n ≠ [] → NodeInfo.status (info n) = busy).

(** What every operation of a node maintains: the ceiling is 4, the keys
    of the task map are distinct (so its length is its [size]), at most 4
    tasks are active, and the stored load is the quotient of the two. *)
Definition node_inv (n : ComputeNode) : Prop :=
  maxConcurrentTasks n = 4%nat
  ∧ NoDup (tasks n).*1
  ∧ (length (tasks n) ≤ 4)%nat
  ∧ (NodeInfo.load (info n) == inject_Z (Z.of_nat (length (tasks n))) / inject_Z 4)%Q.

End compute_node.

(** ** task-scheduler.ts *)

Module task_scheduler.
Import compute_node.

Inductive SchedulingStrategy := round_robin | least_loaded | random | capability_based.

Record SchedulerConfig := mkConfig {
  strategy : SchedulingStrategy;
  maxRetries : Z;
  timeout : Z
}.

(** [Partial<SchedulerConfig>]: a field left out is [undefined]. *)
Record PartialSchedulerConfig := mkPartial {
  strategy_opt : option SchedulingStrategy;
  maxRetries_opt : option Z;
  timeout_opt : option Z
}.

Record TaskScheduler := mkScheduler {
  nodes : list (string * JS.loc);       (* Map<string, ComputeNode>, insertion order *)
  taskQueue : list JS.loc;              (* Task[] *)
  config : SchedulerConfig;
  nextNodeIndex : nat;
  taskResults : gmap string JS.Value
}.

Definition with_nodes (m : list (string * JS.loc)) (s : TaskScheduler) : TaskScheduler :=
  mkScheduler m (taskQueue s) (config s) (nextNodeIndex s) (taskResults s).
Definition with_taskQueue (q : list JS.loc) (s : TaskScheduler) : TaskScheduler :=
  mkScheduler (nodes s) q (config s) (nextNodeIndex s) (taskResults s).
Definition with_nextNodeIndex (i : nat) (s : TaskScheduler) : TaskScheduler :=
  mkScheduler (nodes s) (taskQueue s) (config s) i (taskResults s).
Definition with_taskResults (r : gmap string JS.Value) (s : TaskScheduler) : TaskScheduler :=
  mkScheduler (nodes s) (taskQueue s) (config s) (nextNodeIndex s) r.

(** What the scheduler shares with its callers: the node and task objects,
    the capability arrays, and the sequence [Math.random()] yields, with
    the number of values drawn from it so far. *)
Record Store := mkStore {
  nodeObjs : list ComputeNode;
  taskObjs : list Task.t;
  arrays : list (list string);
  rng : nat -> Q;
  draws : nat
}.

Definition with_nodeObjs (h : list ComputeNode) (st : Store) : Store :=
  mkStore h (taskObjs st) (arrays st) (rng st) (draws st).
Definition with_taskObjs (h : list Task.t) (st : Store) : Store :=
  mkStore (nodeObjs st) h (arrays st) (rng st) (draws st).
Definition with_arrays (h : list (list string)) (st : Store) : Store :=
  mkStore (nodeObjs st) (taskObjs st) h (rng st) (draws st).
Definition with_draws (d : nat) (st : Store) : Store :=
  mkStore (nodeObjs st) (taskObjs st) (arrays st) (rng st) d.

#[global] Instance ComputeNode_inhabited : Inhabited ComputeNode :=
  populate (compute_node.new "" "" 0 0%nat).

(** [constructor(config = {})]. *)
Definition new (cfg : PartialSchedulerConfig) : TaskScheduler :=
  mkScheduler [] []
    (mkConfig (default least_loaded (strategy_opt cfg))
              (JS.or_default (maxRetries_opt cfg) 3)
              (JS.or_default (timeout_opt cfg) 30000))
    0 ∅.

Definition createScheduler (cfg : option PartialSchedulerConfig) : TaskScheduler :=
  new (default (mkPartial None None None) cfg).

(** [createTask(id, type, payload, priority = 0)], at time [now]. *)
Definition createTask (id type : string) (payload : JS.Value) (priority : option Z) (now : Z)
  : Task.t :=
  Task.mk id type payload (default 0 priority) now None.

Definition registerNode (st : Store) (s : TaskScheduler) (node : JS.loc) : TaskScheduler :=
  let info := getInfo (nodeObjs st !!! node) in
  with_nodes (JS.Map_set (NodeInfo.id info) node (nodes s)) s.

Definition unregisterNode (s : TaskScheduler) (nodeId : string) : bool * TaskScheduler :=
  (JS.Map_has nodeId (nodes s), with_nodes (JS.Map_delete nodeId (nodes s)) s).

(** The nodes of the registry that satisfy [canAcceptTask()], in registry
    order. *)
Definition availableNodes (st : Store) (s : TaskScheduler) : list JS.loc :=
  List.filter (λ node, canAcceptTask (nodeObjs st !!! node)) (nodes s).*2.

Definition selectRoundRobin (s : TaskScheduler) (ns : list JS.loc)
  : option JS.loc * TaskScheduler :=
  (ns !! (nextNodeIndex s mod length ns)%nat, with_nextNodeIndex (S (nextNodeIndex s)) s).

(** [nodes.reduce((least, current) => ...)] without an initial value: the
    first element seeds the fold; on an empty array [reduce] throws, and no
    caller passes one. *)
Definition selectLeastLoaded (st : Store) (ns : list JS.loc) : option JS.loc :=
  match ns with
  | [] => None
  | first :: rest =>
      Some (foldl (λ least current,
                     if JS.lt (getLoad (nodeObjs st !!! current)) (getLoad (nodeObjs st !!! least))
                     then current else least)
                  first rest)
  end.

Definition selectRandom (st : Store) (ns : list JS.loc) : option JS.loc * Store :=
  let index := Qfloor (rng st (draws st) * inject_Z (Z.of_nat (length ns)))%Q in
  (if index <? 0 then None else ns !! Z.to_nat index, with_draws (S (draws st)) st).

Definition selectByCapability (st : Store) (ns : list JS.loc) (task : JS.loc) : option JS.loc :=
  let capableNodes :=
    List.filter (λ node, hasCapability (arrays st) (nodeObjs st !!! node)
                           (Task.type (taskObjs st !!! task))) ns in
  match capableNodes with
  | [] => head ns
  | _ => selectLeastLoaded st capableNodes
  end.

(** [selectNode(task)].  The [default:] arm of the switch is not reachable
    with a strategy of the declared union type. *)
Definition selectNode (st : Store) (s : TaskScheduler) (task : JS.loc)
  : option JS.loc * TaskScheduler * Store :=
  let available := availableNodes st s in
  if bool_decide (length available = 0)%nat then (None, s, st)
  else
    match strategy (config s) with
    | round_robin => let '(n, s1) := selectRoundRobin s available in (n, s1, st)
    | least_loaded => (selectLeastLoaded st available, s, st)
    | random => let '(n, st1) := selectRandom st available in (n, s, st1)
    | capability_based => (selectByCapability st available task, s, st)
    end.

(** [taskQueue.sort((a, b) => b.priority - a.priority)]: descending
    priority, stable.  An insertion sort that puts an element in front of
    the first one that does not have a higher priority; [foldr] inserts the
    elements from the last to the first, so among equals the earlier stays
    in front. *)
Fixpoint insert_by_priority (th : list Task.t) (x : JS.loc) (q : list JS.loc) : list JS.loc :=
  match q with
  | [] => [x]
  | y :: r =>
      if Task.priority (th !!! y) <=? Task.priority (th !!! x)
      then x :: y :: r
      else y :: insert_by_priority th x r
  end.

Definition sort_by_priority (th : list Task.t) (q : list JS.loc) : list JS.loc :=
  foldr (insert_by_priority th) [] q.

(** A call of the private [executeTask(node, task)] that has reached its
    [await]: [node.executeTask(task.id)] is under way and the timeout timer
    is armed.  The node is the one the call received, registered or not; the
    id is the one the task had when the call was made. *)
Record Execution := mkExecution {
  ex_node : JS.loc;
  ex_task : JS.loc;
  ex_taskId : string
}.

(** One iteration of the loop of [scheduleNext]. *)
Definition schedule_one (acc : Store * TaskScheduler * list Execution) (task : JS.loc)
  : Store * TaskScheduler * list Execution :=
  let '(st, s, started) := acc in
  let '(choice, s1, st1) := selectNode st s task in
  match choice with
  | None => (st1, s1, started)
  | Some node =>
      let '(accepted, n1, th1) := assignTask (taskObjs st1) (nodeObjs st1 !!! node) task in
      if accepted then
        (with_taskObjs th1 (with_nodeObjs (<[node := n1]> (nodeObjs st1)) st1),
         with_taskQueue (JS.remove_first task (taskQueue s1)) s1,
         started ++ [mkExecution node task (Task.id (th1 !!! task))])
      else (st1, s1, started)
  end.

(** [scheduleNext()]; the executions it starts are returned. *)
Definition scheduleNext (st : Store) (s : TaskScheduler) : Store * TaskScheduler * list Execution :=
  if bool_decide (length (taskQueue s) = 0)%nat then (st, s, [])
  else
    let sorted := sort_by_priority (taskObjs st) (taskQueue s) in
    foldl schedule_one (st, with_taskQueue sorted s, []) sorted.

Definition submitTask (st : Store) (s : TaskScheduler) (task : JS.loc)
  : Store * TaskScheduler * list Execution :=
  scheduleNext st (with_taskQueue (taskQueue s ++ [task]) s).

Definition submitTasks (st : Store) (s : TaskScheduler) (ts : list JS.loc)
  : Store * TaskScheduler * list Execution :=
  scheduleNext st (with_taskQueue (taskQueue s ++ ts) s).

(** The private [executeTask(node, task)] after its [await], when the race
    was won by the node's promise resolving with [result]. *)
Definition executeTask_then (st : Store) (s : TaskScheduler) (task : JS.loc) (result : JS.Value)
  : Store * TaskScheduler * list Execution :=
  scheduleNext st
    (with_taskResults (<[Task.id (taskObjs st !!! task) := result]> (taskResults s)) s).

(** ... and its [catch] block, when the race was won by a rejection: of the
    node's promise or of the timeout. *)
Definition executeTask_catch (st : Store) (s : TaskScheduler) (task : JS.loc)
  : Store * TaskScheduler * list Execution :=
  let t := taskObjs st !!! task in
  if - maxRetries (config s) <? Task.priority t then
    let st1 := with_taskObjs (<[task := Task.with_priority (Task.priority t - 1) t]> (taskObjs st)) st in
    scheduleNext st1 (with_taskQueue (taskQueue s ++ [task]) s)
  else
    (st,
     with_taskResults
       (<[Task.id t := JS.Obj [("error", JS.Str "Max retries exceeded")]]> (taskResults s)) s,
     []).

Definition getResult (s : TaskScheduler) (taskId : string) : option JS.Value :=
  taskResults s !! taskId.

Definition isComplete (s : TaskScheduler) (taskId : string) : bool :=
  bool_decide (is_Some (taskResults s !! taskId)).

Definition getNodes (st : Store) (s : TaskScheduler) : list NodeInfo.t :=
  (λ node, getInfo (nodeObjs st !!! node)) <$> (nodes s).*2.

Definition clearResults (s : TaskScheduler) : TaskScheduler :=
  with_taskResults ∅ s.

(** [getStats()]: one entry per registered node, in registry order. *)
Module NodeStat.
Record t := mk {
  id : string;
  status : NodeStatus;
  load : Q;
  tasks : nat
}.
End NodeStat.

Module Stats.
Record t := mk {
  totalNodes : nat;
  queuedTasks : nat;
  completedTasks : nat;
  nodes : list NodeStat.t;
  strategy : SchedulingStrategy
}.
End Stats.

Definition getStats (st : Store) (s : TaskScheduler) : Stats.t :=
  let nodeStats :=
    (λ node,
       let info := getInfo (nodeObjs st !!! node) in
       NodeStat.mk (NodeInfo.id info) (NodeInfo.status info) (NodeInfo.load info)
                   (getTaskCount (nodeObjs st !!! node)))
    <$> (nodes s).*2 in
  Stats.mk (length (nodes s)) (length (taskQueue s)) (size (taskResults s))
           nodeStats (strategy (config s)).


(** *** The scheduler in its environment *)

(** An execution and what has happened to it: whether its race is decided
    (so that the loser is discarded), and whether the node's handler has
    settled. *)
Record Race := mkRace {
  rc_exec : Execution;
  rc_decided : bool;
  rc_handlerDone : bool
}.

Record World := mkWorld {
  store : Store;
  scheduler : TaskScheduler;
  races : list Race
}.

Definition started_races (started : list Execution) : list Race :=
  (λ e, mkRace e false false) <$> started.

Definition after_pass (rs : list Race) (r : Store * TaskScheduler * list Execution) : World :=
  mkWorld r.1.1 r.1.2 (rs ++ started_races r.2).

Inductive Event :=
| EvCreateNode (id : string) (address : option string) (port : option Z)
    (capabilities : option (list string))
| EvCreateTask (id type : string) (payload : JS.Value) (priority : option Z) (now : Z)
| EvRegisterNode (node : JS.loc)
| EvUnregisterNode (nodeId : string)
| EvSetStatus (node : JS.loc) (status : NodeStatus)
| EvSubmitTask (task : JS.loc)
| EvSubmitTasks (ts : list JS.loc)
| EvHandlerSettles (k : nat) (outcome : JS.Settled JS.Value)
| EvTimeoutFires (k : nat)
| EvClearResults.

Definition step (w : World) (ev : Event) : World :=
  let st := store w in
  let s := scheduler w in
  match ev with
  | EvCreateNode id address port capabilities =>
      let '(caps, ah) :=
        match capabilities with
        | Some a => let '(l, ah) := JS.alloc (arrays st) a in (Some l, ah)
        | None => (None, arrays st)
        end in
      let '(n, ah1) := createComputeNode ah id address port caps in
      mkWorld (with_arrays ah1 (with_nodeObjs (JS.alloc (nodeObjs st) n).2 st)) s (races w)
  | EvCreateTask id type payload priority now =>
      mkWorld (with_taskObjs (JS.alloc (taskObjs st) (createTask id type payload priority now)).2 st)
              s (races w)
  | EvRegisterNode node => mkWorld st (registerNode st s node) (races w)
  | EvUnregisterNode nodeId => mkWorld st (unregisterNode s nodeId).2 (races w)
  | EvSetStatus node status =>
      mkWorld (with_nodeObjs (<[node := setStatus status (nodeObjs st !!! node)]> (nodeObjs st)) st)
              s (races w)
  | EvSubmitTask task => after_pass (races w) (submitTask st s task)
  | EvSubmitTasks ts => after_pass (races w) (submitTasks st s ts)
  | EvHandlerSettles k outcome =>
      match races w !! k with
      | Some r =>
          if rc_handlerDone r then w
          else
            let e := rc_exec r in
            let '(n1, settled) :=
              executeTask_settle (nodeObjs st !!! ex_node e) (ex_taskId e) outcome in
            let st1 := with_nodeObjs (<[ex_node e := n1]> (nodeObjs st)) st in
            if rc_decided r then mkWorld st1 s (<[k := mkRace e true true]> (races w))
            else
              let rs := <[k := mkRace e true true]> (races w) in
              match settled with
              | JS.Resolved result => after_pass rs (executeTask_then st1 s (ex_task e) result)
              | JS.Rejected _ => after_pass rs (executeTask_catch st1 s (ex_task e))
              end
      | None => w
      end
  | EvTimeoutFires k =>
      match races w !! k with
      | Some r =>
          if rc_decided r then w
          else
            after_pass (<[k := mkRace (rc_exec r) true (rc_handlerDone r)]> (races w))
                       (executeTask_catch st s (ex_task (rc_exec r)))
      | None => w
      end
  | EvClearResults => mkWorld st (clearResults s) (races w)
  end.

Definition run (w : World) (evs : list Event) : World := foldl step w evs.

(** A fresh scheduler in an environment that holds no object yet. *)
Definition init (cfg : option PartialSchedulerConfig) (random : nat -> Q) : World :=
  mkWorld (mkStore [] [] [] random 0) (createScheduler cfg) [].

(** *** Statements about a pass and about a requeue *)



(** Under round-robin, the cursor counts the placements made since
    construction. *)
Definition cursor_counts_placements (w : World) : Prop :=
  strategy (config (scheduler w)) = round_robin
  ∧ nextNodeIndex (scheduler w) = length (races w).

End task_scheduler.

(** ** communication.ts *)

Module communication.

Inductive MessageType := request | response | broadcast | heartbeat.

(** [to: string | string[]]. *)
Inductive Recipient :=
| One (peer : string)
| Many (peerIds : list string).

Record Message := mkMessage {
  id : string;
  type : MessageType;
  from : string;
  to : Recipient;
  payload : JS.Value;
  timestamp : Z
}.

Record CommunicationConfig := mkConfig {
  heartbeatInterval : Z;
  messageTimeout : Z;
  maxRetries : Z
}.

Record PartialCommunicationConfig := mkPartial {
  heartbeatInterval_opt : option Z;
  messageTimeout_opt : option Z;
  maxRetries_opt : option Z
}.

Inductive PeerStatus := online | offline.

Record Peer := mkPeer {
  lastSeen : Z;
  status : PeerStatus
}.

(** A registered handler is a callback of the caller; what the instance
    sees of a call is whether it returned or threw. *)
Inductive HandlerOutcome :=
| Returns
| Throws (message : string).

Definition Handler := Message -> HandlerOutcome.

(** The timers of the environment: [setInterval] hands out a fresh handle
    and keeps the timer until [clearInterval] is called on that handle. *)
Record Timers := mkTimers {
  nextHandle : nat;
  intervals : list (nat * Z)      (* handle, period in milliseconds *)
}.

Definition setInterval (period : Z) (tm : Timers) : nat * Timers :=
  (nextHandle tm, mkTimers (S (nextHandle tm)) (intervals tm ++ [(nextHandle tm, period)])).

Definition clearInterval (handle : nat) (tm : Timers) : Timers :=
  mkTimers (nextHandle tm)
           (List.filter (λ t, negb (bool_decide (t.1 = handle))) (intervals tm)).

Record Communication := mkCommunication {
  nodeId : string;
  peers : list (string * Peer);                    (* Map, insertion order *)
  messageHandlers : MessageType -> option Handler; (* Map<MessageType, handler> *)
  pendingMessages : gmap string Message;
  config : CommunicationConfig;
  heartbeatTimer : option nat
}.

Definition with_peers (m : list (string * Peer)) (c : Communication) : Communication :=
  mkCommunication (nodeId c) m (messageHandlers c) (pendingMessages c) (config c)
    (heartbeatTimer c).
Definition with_messageHandlers (h : MessageType -> option Handler) (c : Communication)
  : Communication :=
  mkCommunication (nodeId c) (peers c) h (pendingMessages c) (config c) (heartbeatTimer c).
Definition with_pendingMessages (m : gmap string Message) (c : Communication) : Communication :=
  mkCommunication (nodeId c) (peers c) (messageHandlers c) m (config c) (heartbeatTimer c).
Definition with_heartbeatTimer (t : option nat) (c : Communication) : Communication :=
  mkCommunication (nodeId c) (peers c) (messageHandlers c) (pendingMessages c) (config c) t.

#[global] Instance MessageType_eq_dec : EqDecision MessageType.
Proof. solve_decision. Defined.

#[global] Instance PeerStatus_eq_dec : EqDecision PeerStatus.
Proof. solve_decision. Defined.

(** [constructor(nodeId, config = {})]. *)
Definition new (nodeId : string) (cfg : PartialCommunicationConfig) : Communication :=
  mkCommunication nodeId [] (λ _, None) ∅
    (mkConfig (JS.or_default (heartbeatInterval_opt cfg) 5000)
              (JS.or_default (messageTimeout_opt cfg) 10000)
              (JS.or_default (maxRetries_opt cfg) 3))
    None.

Definition createCommunication (nodeId : string) (cfg : option PartialCommunicationConfig)
  : Communication :=
  new nodeId (default (mkPartial None None None) cfg).

(** [startHeartbeat()]: the handle of the new timer replaces whatever the
    field held. *)
Definition startHeartbeat (tm : Timers) (c : Communication) : Timers * Communication :=
  let '(handle, tm1) := setInterval (heartbeatInterval (config c)) tm in
  (tm1, with_heartbeatTimer (Some handle) c).

Definition start (tm : Timers) (c : Communication) : Timers * Communication :=
  startHeartbeat tm c.

Definition stop (tm : Timers) (c : Communication) : Timers * Communication :=
  match heartbeatTimer c with
  | Some handle => (clearInterval handle tm, with_heartbeatTimer None c)
  | None => (tm, c)
  end.

(** [generateMessageId()]: the node id, the time and a random suffix. *)
Definition generateMessageId (c : Communication) (now : Z) (suffix : string) : string :=
  nodeId c +:+ "_" +:+ pretty now +:+ "_" +:+ suffix.

(** [transmit(message)] after its [await]. *)
Definition transmit_done (c : Communication) (messageId : string) : Communication :=
  with_pendingMessages (delete messageId (pendingMessages c)) c.

(** [send(to, payload, type = 'request')] up to the [await] inside
    [transmit]; [transmit_done] follows when the delay has passed. *)
Definition send (now : Z) (suffix : string) (c : Communication)
    (recipient : Recipient) (body : JS.Value) (ty : option MessageType)
  : Message * Communication :=
  let message :=
    mkMessage (generateMessageId c now suffix) (default request ty) (nodeId c) recipient body now in
  (message, with_pendingMessages (<[id message := message]> (pendingMessages c)) c).

(** [broadcast(payload)] up to the same point: the message is built and
    handed to [transmit]; it is not entered among the pending ones. *)
Definition broadcast_message (now : Z) (suffix : string) (c : Communication) (body : JS.Value)
  : Message :=
  mkMessage (generateMessageId c now suffix) broadcast (nodeId c) (Many (peers c).*1) body now.

Definition onMessage (c : Communication) (ty : MessageType) (handler : Handler) : Communication :=
  with_messageHandlers
    (λ ty', if decide (ty' = ty) then Some handler else messageHandlers c ty') c.

Definition registerPeer (now : Z) (c : Communication) (peerId : string) : Communication :=
  with_peers (JS.Map_set peerId (mkPeer now online) (peers c)) c.

Definition unregisterPeer (c : Communication) (peerId : string) : bool * Communication :=
  (JS.Map_has peerId (peers c), with_peers (JS.Map_delete peerId (peers c)) c).

(** [updatePeer(peerId)]: the record found is written in place. *)
Definition updatePeer (now : Z) (c : Communication) (peerId : string) : Communication :=
  match JS.Map_get peerId (peers c) with
  | Some _ => with_peers (JS.Map_set peerId (mkPeer now online) (peers c)) c
  | None => registerPeer now c peerId
  end.

(** [handleMessage(message)]: a handler that throws makes the promise
    reject before the peer table is touched. *)
Definition handleMessage (now : Z) (c : Communication) (message : Message)
  : Communication * JS.Settled unit :=
  let thrown :=
    match messageHandlers c (type message) with
    | Some handler =>
        match handler message with
        | Returns => None
        | Throws e => Some e
        end
    | None => None
    end in
  match thrown with
  | Some e => (c, JS.Rejected e)
  | None =>
      (if bool_decide (from message ≠ nodeId c) then updatePeer now c (from message) else c,
       JS.Resolved ())
  end.

(** [sendHeartbeat()] up to its [await]. *)
Definition sendHeartbeat (now : Z) (suffix : string) (c : Communication) : Communication :=
  let peerIds := (peers c).*1 in
  if bool_decide (0 < length peerIds)%nat then
    (send now suffix c (Many peerIds)
       (JS.Obj [("status", JS.Str "alive")]) (Some heartbeat)).2
  else c.

Definition checkPeerStatus (now : Z) (c : Communication) : Communication :=
  let timeout := heartbeatInterval (config c) * 3 in
  with_peers
    (JS.Map_map (λ peer, if timeout <? now - lastSeen peer
                         then mkPeer (lastSeen peer) offline else peer)
                (peers c)) c.

(** The callback given to [setInterval]. *)
Definition heartbeat_tick (now : Z) (suffix : string) (c : Communication) : Communication :=
  checkPeerStatus now (sendHeartbeat now suffix c).

(** [getPeerStatus(peerId)]; [None] stands for ['unknown']. *)
Definition getPeerStatus (c : Communication) (peerId : string) : option PeerStatus :=
  status <$> JS.Map_get peerId (peers c).

Definition getPeers (c : Communication) : list string := (peers c).*1.

Definition getOnlinePeers (c : Communication) : list string :=
  (List.filter (λ e, bool_decide (status e.2 = online)) (peers c)).*1.

(** *** The instance in its environment: a clock and the timers *)

Record World := mkWorld {
  clock : Z;                 (* what [Date.now()] returns *)
  timers : Timers;
  comm : Communication
}.

Inductive Event :=
| EvElapse (ms : N)                       (* the clock does not run backwards *)
| EvStart
| EvStop
| EvTimerFires (handle : nat) (suffix : string)
| EvSend (recipient : Recipient) (body : JS.Value) (ty : option MessageType) (suffix : string)
| EvTransmitted (messageId : string)
| EvOnMessage (ty : MessageType) (handler : Handler)
| EvHandleMessage (message : Message)
| EvRegisterPeer (peerId : string)
| EvUnregisterPeer (peerId : string).

Definition step (w : World) (ev : Event) : World :=
  let now := clock w in
  let c := comm w in
  match ev with
  | EvElapse ms => mkWorld (now + Z.of_N ms) (timers w) c
  | EvStart => let '(tm, c1) := start (timers w) c in mkWorld now tm c1
  | EvStop => let '(tm, c1) := stop (timers w) c in mkWorld now tm c1
  | EvTimerFires handle suffix =>
      if bool_decide (handle ∈ (intervals (timers w)).*1)
      then mkWorld now (timers w) (heartbeat_tick now suffix c)
      else w
  | EvSend recipient body ty suffix =>
      mkWorld now (timers w) (send now suffix c recipient body ty).2
  | EvTransmitted messageId => mkWorld now (timers w) (transmit_done c messageId)
  | EvOnMessage ty handler => mkWorld now (timers w) (onMessage c ty handler)
  | EvHandleMessage message => mkWorld now (timers w) (handleMessage now c message).1
  | EvRegisterPeer peerId => mkWorld now (timers w) (registerPeer now c peerId)
  | EvUnregisterPeer peerId => mkWorld now (timers w) (unregisterPeer c peerId).2
  end.

Definition run (w : World) (evs : list Event) : World := foldl step w evs.

(** A fresh instance at time [now], with no timer armed. *)
Definition init (now : Z) (nodeId : string) (cfg : option PartialCommunicationConfig) : World :=
  mkWorld now (mkTimers 1 []) (createCommunication nodeId cfg).

(** [getStats()]. *)
Module Stats.
Record t := mk {
  nodeId : string;
  totalPeers : nat;
  onlinePeers : nat;
  offlinePeers : Z;
  pendingMessages : nat;
  config : CommunicationConfig
}.
End Stats.

Definition getStats (c : Communication) : Stats.t :=
  let totalPeers := length (peers c) in
  let onlinePeers := length (getOnlinePeers c) in
  Stats.mk (nodeId c) totalPeers onlinePeers (Z.of_nat totalPeers - Z.of_nat onlinePeers)
           (size (pendingMessages c)) (config c).

(** *** Statements about the timers *)

(** The handles of the armed timers are distinct and were all handed out
    already; the handle the instance holds is of an armed timer. *)
Definition timers_wf (w : World) : Prop :=
  NoDup (intervals (timers w)).*1
  ∧ (∀ h, h ∈ (intervals (timers w)).*1 → (h < nextHandle (timers w))%nat)
  ∧ (∀ h, heartbeatTimer (comm w) = Some h → h ∈ (intervals (timers w)).*1).

(** Whether the instance holds the handle of a timer. *)
Definition holds_timer (c : Communication) : bool :=
  match heartbeatTimer c with
  | Some _ => true
  | None => false
  end.

(** The calls of [start()] made while a timer is held, in a sequence of
    events that begins with a timer held or not. *)
Fixpoint restarts (held : bool) (evs : list Event) : nat :=
  match evs with
  | [] => 0
  | EvStart :: r => ((if held then 1 else 0) + restarts true r)%nat
  | EvStop :: r => restarts false r
  | _ :: r => restarts held r
  end.

(** *** Statements about peer liveness *)



End communication.

(** ** Scenarios: the concrete runs the properties below refer to *)

Module scenario.

(** A node that has been assigned the single task ["t1"] and on which
    [executeTask("t1")] has been called. *)
Definition one_task_running : compute_node.NodeWorld :=
  compute_node.node_run
    (compute_node.node_init
       (compute_node.createComputeNode [] "n1" (Some "localhost") (Some 8080) None).1
       [compute_node.Task.mk "t1" "inference" JS.Undefined 0 0 None] [[]])
    [compute_node.OpAssignTask 0%nat; compute_node.OpExecuteTask "t1"].

Import task_scheduler.

(** [createScheduler({ timeout: 10 })], one node, and a ["training"] task
    (500 ms of work) submitted with priority 5: each attempt is cut off by
    the timeout. *)
Definition retry_setup : World :=
  run (init (Some (mkPartial None None (Some 10))) (λ _, 0%Q))
      [EvCreateNode "n1" None None None; EvRegisterNode 0%nat;
       EvCreateTask "t1" "training" JS.Undefined (Some 5) 0; EvSubmitTask 0%nat].

(** The execution started last times out, [k] times in a row. *)
Fixpoint timeouts_from (first k : nat) : list Event :=
  match k with
  | O => []
  | S k' => EvTimeoutFires first :: timeouts_from (S first) k'
  end.

(** Nodes A then B under round-robin, then task1 and task2. *)
Definition round_robin_setup (random : nat -> Q) : World :=
  run (init (Some (mkPartial (Some round_robin) None None)) random)
      [EvCreateNode "A" (Some "localhost") (Some 8080) None;
       EvCreateNode "B" (Some "localhost") (Some 8081) None;
       EvRegisterNode 0%nat; EvRegisterNode 1%nat;
       EvCreateTask "task1" "inference" (JS.Obj []) None 0;
       EvCreateTask "task2" "training" (JS.Obj []) None 0].

(** [retry_setup] after the first attempt has timed out: the first
    execution has lost its race and its handler is still running, the retry
    is in flight on the same node. *)
Definition retry_in_flight : World :=
  run retry_setup [EvTimeoutFires 0%nat].

(** The node operations that assign ["t1"], start it and take the node
    offline while it runs. *)
Definition offline_while_running : list compute_node.NodeOp :=
  [compute_node.OpAssignTask 0%nat; compute_node.OpExecuteTask "t1";
   compute_node.OpSetStatus compute_node.offline].

(** Three nodes of which only the second can do ["training"], under the
    capability-based strategy, and a ["training"] task. *)
Definition capability_setup : World :=
  run (init (Some (mkPartial (Some capability_based) None None)) (λ _, 0%Q))
      [EvCreateNode "n1" None (Some 8080) (Some ["inference"]);
       EvCreateNode "n2" None (Some 8081) (Some ["training"]);
       EvCreateNode "n3" None (Some 8082) (Some ["inference"]);
       EvRegisterNode 0%nat; EvRegisterNode 1%nat; EvRegisterNode 2%nat;
       EvCreateTask "job" "training" (JS.Obj []) None 0].

(** A scheduler with no node registered and one task queued. *)
Definition no_node_store : Store :=
  mkStore [] [compute_node.Task.mk "t1" "inference" JS.Undefined 0 0 None] [] (λ _, 0%Q) 0.

Definition no_node_scheduler : TaskScheduler :=
  with_taskQueue [0%nat] (createScheduler None).

Import communication.

(** An instance whose handler for requests throws, and a peer that stays
    silent for 20 s under the default 5 s heartbeat: the scan of the timer
    marks it offline. *)
Definition silent_peer : communication.World :=
  communication.run (communication.init 0 "local" None)
    [EvOnMessage request (λ _, Throws "handler failed");
     communication.EvRegisterPeer "p";
     EvStart; EvElapse 20000; EvTimerFires 1%nat "x"].

Definition request_from_p : Message :=
  mkMessage "m1" request "p" (One "local") JS.Undefined 20000.

End scenario.

(** * Properties *)

Module CN := compute_node.
Module TS := task_scheduler.
Module CM := communication.

(** ** Insertion-ordered maps *)

Section MapLemmas.

Context {V : Type}.
Implicit Types (m : list (string * V)) (k : string).

Lemma Map_get_set_eq k v m : JS.Map_get k (JS.Map_set k v m) = Some v.
Proof.
  induction m as [|[k' v'] m IH]; simpl.
  - by rewrite decide_True.
  - destruct (decide (k = k')) as [->|Hne]; simpl.
    + by rewrite decide_True.
    + by rewrite decide_False.
Qed.

Lemma Map_get_set_ne k k' v m :
  k ≠ k' → JS.Map_get k' (JS.Map_set k v m) = JS.Map_get k' m.
Proof.
  intros Hne. induction m as [|[k0 v0] m IH]; simpl.
  - by rewrite decide_False.
  - destruct (decide (k = k0)) as [->|Hne0]; simpl.
    + by rewrite !decide_False.
    + destruct (decide (k' = k0)); done.
Qed.

Lemma Map_get_delete k k' m :
  JS.Map_get k' (JS.Map_delete k m) = if decide (k' = k) then None else JS.Map_get k' m.
Proof.
  induction m as [|[k0 v0] m IH]; simpl.
  - by destruct (decide (k' = k)).
  - destruct (decide (k0 = k)) as [->|Hne].
    + rewrite bool_decide_eq_true_2 by done. simpl. rewrite IH.
      destruct (decide (k' = k)); done.
    + rewrite bool_decide_eq_false_2 by done. simpl. rewrite IH.
      destruct (decide (k' = k0)) as [->|]; [|done].
      by rewrite decide_False.
Qed.

Lemma Map_get_map k (f : V → V) m :
  JS.Map_get k (JS.Map_map f m) = f <$> JS.Map_get k m.
Proof.
  induction m as [|[k' v'] m IH]; simpl; [done|].
  destruct (decide (k = k')); done.
Qed.


Lemma Map_set_length k v m :
  (length m ≤ length (JS.Map_set k v m) ≤ S (length m))%nat.
Proof.
  induction m as [|[k' v'] m IH]; simpl; [lia|].
  destruct (decide (k = k')); simpl; lia.
Qed.

Lemma Map_delete_length k m : (length (JS.Map_delete k m) ≤ length m)%nat.
Proof.
  induction m as [|[k' v'] m IH]; simpl; [lia|].
  destruct (negb _); simpl; lia.
Qed.

(** [set] keeps the place of a key that is present and appends one that is
    not. *)
Lemma Map_set_keys k v m :
  (JS.Map_set k v m).*1 = if bool_decide (k ∈ m.*1) then m.*1 else m.*1 ++ [k].
Proof.
  induction m as [|[k' v'] m IH]; [done|].
  cbn [JS.Map_set]. destruct (decide (k = k')) as [->|Hne]; rewrite !fmap_cons; cbn [fst].
  - rewrite bool_decide_eq_true_2; [done|left].
  - rewrite IH. destruct (bool_decide_reflect (k ∈ m.*1)) as [Hin|Hnin].
    + rewrite bool_decide_eq_true_2; [done|by right].
    + rewrite bool_decide_eq_false_2; [done|].
      by intros [?|?]%elem_of_cons.
Qed.

(** [set] and [delete] keep the keys distinct, so the length of the list is
    the [size] of the [Map]. *)
Lemma Map_set_NoDup k v m : NoDup m.*1 → NoDup (JS.Map_set k v m).*1.
Proof.
  intros Hnd. rewrite Map_set_keys. case_bool_decide as Hin; [done|].
  apply NoDup_app. split; [done|]. split; [|apply NoDup_singleton].
  intros x Hx ->%list_elem_of_singleton. done.
Qed.

Lemma Map_delete_NoDup k m : NoDup m.*1 → NoDup (JS.Map_delete k m).*1.
Proof.
  induction m as [|[k' v'] m IH]; simpl; intros Hnd; [done|].
  apply NoDup_cons in Hnd as [Hk' Hnd].
  case_bool_decide; simpl; [by apply IH|].
  apply NoDup_cons. split; [|by apply IH].
  intros Hin. apply Hk'. apply list_elem_of_fmap in Hin as (x & -> & Hin).
  apply list_elem_of_fmap. exists x. split; [done|].
  unfold JS.Map_delete in Hin. apply list_elem_of_In, filter_In in Hin as [Hin _].
  by apply list_elem_of_In.
Qed.

End MapLemmas.

(** ** ComputeNode: load and capacity *)

Section NodeInvariant.

Import compute_node.

Lemma node_inv_new id address port caps : node_inv (new id address port caps).
Proof.
  unfold node_inv, new; simpl.
  split; [done|]. split; [apply NoDup_nil_2|]. split; [lia|]. reflexivity.
Qed.

Lemma node_inv_setStatus s n : node_inv n → node_inv (setStatus s n).
Proof. by intros H. Qed.

Lemma node_inv_updateLoad m n :
  maxConcurrentTasks n = 4%nat → NoDup m.*1 → (length m ≤ 4)%nat →
  node_inv (updateLoad (with_tasks m n)).
Proof.
  intros Hmax Hnd Hsize. unfold node_inv, updateLoad, with_tasks, with_info; simpl.
  rewrite Hmax. split; [done|]. split; [done|]. split; [done|]. reflexivity.
Qed.

Lemma canAcceptTask_spec n :
  canAcceptTask n = true ↔
  NodeInfo.status (info n) ≠ offline ∧ (length (tasks n) < maxConcurrentTasks n)%nat.
Proof.
  unfold canAcceptTask. rewrite andb_true_iff, negb_true_iff.
  rewrite bool_decide_eq_false, bool_decide_eq_true. done.
Qed.

Lemma node_inv_assignTask th n task :
  node_inv n → node_inv (assignTask th n task).1.2.
Proof.
  intros (Hmax & Hnd & Hsize & Hload). unfold assignTask.
  destruct (canAcceptTask n) eqn:Hacc; simpl; [|done].
  apply canAcceptTask_spec in Hacc as [_ Hlt]. rewrite Hmax in Hlt.
  set (k := Task.id _). set (m := JS.Map_set k task (tasks n)).
  assert (Hm : (length m ≤ 4)%nat).
  { unfold m. pose proof (Map_set_length k task (tasks n)). lia. }
  assert (Hnd' : NoDup m.*1) by by apply Map_set_NoDup.
  pose proof (node_inv_updateLoad m n Hmax Hnd' Hm) as Hinv.
  case_bool_decide; [by apply node_inv_setStatus | done].
Qed.

Lemma node_inv_settle n taskId outcome :
  node_inv n → node_inv (executeTask_settle n taskId outcome).1.
Proof.
  intros (Hmax & Hnd & Hsize & Hload).
  assert (Hm : (length (JS.Map_delete taskId (tasks n)) ≤ 4)%nat).
  { pose proof (Map_delete_length taskId (tasks n)). lia. }
  assert (Hnd' : NoDup (JS.Map_delete taskId (tasks n)).*1) by by apply Map_delete_NoDup.
  pose proof (node_inv_updateLoad _ n Hmax Hnd' Hm) as Hinv.
  destruct outcome; simpl; [|done].
  case_bool_decide; [by apply node_inv_setStatus | done].
Qed.

Lemma node_inv_step w op : node_inv (nw_node w) → node_inv (nw_node (node_step w op)).
Proof.
  intros H. destruct op as [s|task|taskId|k outcome|c|c]; simpl.
  - exact (node_inv_setStatus s _ H).
  - pose proof (node_inv_assignTask (nw_tasks w) (nw_node w) task H) as H'.
    by destruct (assignTask _ _ _) as [[ok n'] th'].
  - by destruct (executeTask_begin _ _).
  - destruct (nw_calls w !! k) as [[taskId []]|]; simpl; try exact H.
    by apply node_inv_settle.
  - exact H.
  - exact H.
Qed.

Lemma node_inv_run ops : ∀ w, node_inv (nw_node w) → node_inv (nw_node (node_run w ops)).
Proof.
  induction ops as [|op ops IH]; intros w H; [done|].
  simpl. apply IH. by apply node_inv_step.
Qed.

Lemma quarter_bounds (k : nat) (q : Q) :
  (k ≤ 4)%nat → (q == inject_Z (Z.of_nat k) / inject_Z 4)%Q → (0 <= q)%Q ∧ (q <= 1)%Q.
Proof.
  intros Hk ->. unfold Qle, Qdiv, Qmult, Qinv, inject_Z; simpl. lia.
Qed.

Lemma quarter_values (k : nat) (q : Q) :
  (k ≤ 4)%nat → (q == inject_Z (Z.of_nat k) / inject_Z 4)%Q →
  (q == 0 ∨ q == 1 # 4 ∨ q == 1 # 2 ∨ q == 3 # 4 ∨ q == 1)%Q.
Proof.
  intros Hk ->.
  assert (k = 0 ∨ k = 1 ∨ k = 2 ∨ k = 3 ∨ k = 4)%nat as Hc by lia.
  destruct Hc as [->|[->|[->|[->| ->]]]]; [left|right;left|right;right;left|
    right;right;right;left|right;right;right;right]; reflexivity.
Qed.

End NodeInvariant.

(** C4. For every node, after every public operation (construction,
    [setStatus], [assignTask], the settling of [executeTask] either way, the
    capability mutators, in any order and number), the load equals the active
    task count divided by the concurrency ceiling, and it lies in [0, 1]. *)
Theorem C4_load_is_count_over_ceiling (id address : string) (port : Z) (caps : JS.loc)
    (th : list CN.Task.t) (ah : list (list string)) (ops : list CN.NodeOp) :
  let n := CN.nw_node (CN.node_run (CN.node_init (CN.new id address port caps) th ah) ops) in
  (CN.getLoad n ==
     inject_Z (Z.of_nat (CN.getTaskCount n)) / inject_Z (Z.of_nat (CN.maxConcurrentTasks n)))%Q
  ∧ (0 <= CN.getLoad n)%Q ∧ (CN.getLoad n <= 1)%Q.
Proof.
  intros n.
  assert (Hinv : CN.node_inv n).
  { apply node_inv_run; simpl. apply node_inv_new. }
  destruct Hinv as (Hmax & _ & Hsize & Hload).
  unfold CN.getLoad, CN.getTaskCount. rewrite Hmax. split; [exact Hload|].
  exact (quarter_bounds _ _ Hsize Hload).
Qed.

(** C10. Every node has the ceiling 4: [createComputeNode] and the
    constructor take no argument for it and no operation changes it.  So at
    every moment at most 4 tasks are active, a node that accepts has fewer
    than 4, and the load is one of 0, 1/4, 1/2, 3/4, 1. *)
Theorem C10_ceiling_fixed_at_four (ah : list (list string)) (id : string)
    (address : option string) (port : option Z) (caps : option JS.loc)
    (th : list CN.Task.t) (ops : list CN.NodeOp) :
  let created := CN.createComputeNode ah id address port caps in
  let n := CN.nw_node (CN.node_run (CN.node_init created.1 th created.2) ops) in
  CN.maxConcurrentTasks created.1 = 4%nat
  ∧ CN.maxConcurrentTasks n = 4%nat
  ∧ (CN.getTaskCount n ≤ 4)%nat
  ∧ (CN.canAcceptTask n = true → (CN.getTaskCount n < 4)%nat)
  ∧ (CN.getLoad n == 0 ∨ CN.getLoad n == 1 # 4 ∨ CN.getLoad n == 1 # 2
     ∨ CN.getLoad n == 3 # 4 ∨ CN.getLoad n == 1)%Q.
Proof.
  intros created n.
  assert (Hnew : CN.node_inv created.1).
  { unfold created, CN.createComputeNode. destruct caps; simpl; apply node_inv_new. }
  assert (Hinv : CN.node_inv n) by (apply node_inv_run; exact Hnew).
  destruct Hnew as (Hmax0 & _). destruct Hinv as (Hmax & _ & Hsize & Hload).
  unfold CN.getTaskCount, CN.getLoad.
  repeat split; try done.
  - intros Hacc. apply canAcceptTask_spec in Hacc as [_ Hlt]. by rewrite Hmax in Hlt.
  - exact (quarter_values _ _ Hsize Hload).
Qed.

(** [executeTask] removes the task from the active set however the handler
    settles. *)
Lemma executeTask_settle_removes n taskId outcome :
  JS.Map_get taskId (CN.tasks (CN.executeTask_settle n taskId outcome).1) = None.
Proof.
  destruct outcome; simpl; [case_bool_decide|]; simpl;
    rewrite Map_get_delete; by rewrite decide_True.
Qed.

(** C2, at the failing input.  A node holds one task and its handler
    throws: the [catch] block removes the task, so the active set is empty,
    but leaves the status [busy]; the [try] path in the same state restores
    [idle]. *)
Theorem C2_handler_failure_leaves_busy :
  let w := scenario.one_task_running in
  let failed := CN.nw_node (CN.node_step w (CN.OpSettle 0 (JS.Rejected "handler failed"))) in
  let succeeded := CN.nw_node (CN.node_step w (CN.OpSettle 0 (JS.Resolved JS.Undefined))) in
  CN.getTasks (CN.nw_node w) = [0%nat]
  ∧ CN.NodeInfo.status (CN.info (CN.nw_node w)) = CN.busy
  ∧ CN.nw_calls w = [("t1", false)]
  ∧ CN.getTasks failed = []
  ∧ CN.NodeInfo.status (CN.info failed) = CN.busy
  ∧ CN.getTasks succeeded = []
  ∧ CN.NodeInfo.status (CN.info succeeded) = CN.idle.
Proof. vm_compute. repeat split. Qed.

(** C7, at the failing input.  [getInfo()] copies the scalar fields but
    hands out the node's own [capabilities] array: a [push] through the
    snapshot gives the node a capability, and a later [addCapability] on the
    node shows through the snapshot taken before. *)
Theorem C7_snapshot_shares_capabilities :
  let ah := [["inference"]] in
  let n := (CN.createComputeNode ah "n1" None None (Some 0%nat)).1 in
  let snapshot := CN.getInfo n in
  let pushed :=
    <[CN.NodeInfo.capabilities snapshot :=
        (ah !!! CN.NodeInfo.capabilities snapshot) ++ ["training"]]> ah in
  let added := CN.addCapability ah n "data_processing" in
  CN.hasCapability ah n "training" = false
  ∧ CN.hasCapability pushed n "training" = true
  ∧ ah !!! CN.NodeInfo.capabilities snapshot = ["inference"]
  ∧ added !!! CN.NodeInfo.capabilities snapshot = ["inference"; "data_processing"].
Proof. vm_compute. repeat split. Qed.

(** ** TaskScheduler *)

(** C9. A configuration field given as [0] is replaced by the default, as
    a field left out is: [maxRetries] 3 and [timeout] 30000 for the
    scheduler, [heartbeatInterval] 5000 (and [messageTimeout] 10000,
    [maxRetries] 3) for the communication instance. *)
Theorem C9_zero_is_replaced_by_default
    (strategy : option TS.SchedulingStrategy) (other : option Z) (nodeId : string) :
  TS.maxRetries (TS.config (TS.createScheduler (Some (TS.mkPartial strategy (Some 0) other)))) = 3
  ∧ TS.timeout (TS.config (TS.createScheduler (Some (TS.mkPartial strategy other (Some 0))))) = 30000
  ∧ CM.heartbeatInterval
      (CM.config (CM.createCommunication nodeId (Some (CM.mkPartial (Some 0) other other)))) = 5000
  ∧ CM.messageTimeout
      (CM.config (CM.createCommunication nodeId (Some (CM.mkPartial other (Some 0) other)))) = 10000
  ∧ CM.maxRetries
      (CM.config (CM.createCommunication nodeId (Some (CM.mkPartial other other (Some 0))))) = 3.
Proof. repeat split. Qed.

(** C1, at the failing input.  With [maxRetries] 3 and a task submitted
    with priority 5, the fourth failure in a row (the [maxRetries+1]-th)
    records nothing and requeues the task a fourth time: five executions
    have been started.  The task is requeued eight times in all, and it is
    the ninth failure that records ["Max retries exceeded"]. *)
Theorem C1_retries_depend_on_priority :
  let w4 := TS.run scenario.retry_setup (scenario.timeouts_from 0 4) in
  let w8 := TS.run scenario.retry_setup (scenario.timeouts_from 0 8) in
  let w9 := TS.run scenario.retry_setup (scenario.timeouts_from 0 9) in
  TS.maxRetries (TS.config (TS.scheduler scenario.retry_setup)) = 3
  ∧ CN.Task.priority <$> TS.taskObjs (TS.store scenario.retry_setup) = [5]
  ∧ length (TS.races scenario.retry_setup) = 1%nat
  ∧ TS.isComplete (TS.scheduler w4) "t1" = false
  ∧ length (TS.races w4) = 5%nat
  ∧ TS.isComplete (TS.scheduler w8) "t1" = false
  ∧ length (TS.races w8) = 9%nat
  ∧ TS.getResult (TS.scheduler w9) "t1"
    = Some (JS.Obj [("error", JS.Str "Max retries exceeded")])
  ∧ length (TS.races w9) = 9%nat.
Proof. vm_compute. repeat split. Qed.

Section SchedulerLemmas.

Import compute_node task_scheduler.

(** *** What a scheduling pass leaves alone *)


Lemma selectNode_frame st s task :
  let r := selectNode st s task in
  taskObjs r.2 = taskObjs st ∧ nodeObjs r.2 = nodeObjs st
  ∧ taskQueue r.1.2 = taskQueue s ∧ taskResults r.1.2 = taskResults s
  ∧ config r.1.2 = config s.
Proof.
  unfold selectNode. case_bool_decide; simpl; [done|].
  destruct (strategy (config s)); simpl; done.
Qed.




Lemma schedule_one_results acc task :
  taskResults (schedule_one acc task).1.2 = taskResults acc.1.2.
Proof.
  destruct acc as [[st s] started]. unfold schedule_one.
  pose proof (selectNode_frame st s task) as (_ & _ & _ & Hres & _).
  destruct (selectNode st s task) as [[choice s1] st1]; simpl in *.
  destruct choice as [node|]; simpl; [|done].
  destruct (assignTask _ _ _) as [[accepted n1] th1]; simpl.
  destruct accepted; simpl; done.
Qed.

Lemma scheduleNext_results st s :
  taskResults (scheduleNext st s).1.2 = taskResults s.
Proof.
  unfold scheduleNext. case_bool_decide; [done|].
  set (q := sort_by_priority _ _).
  assert (Hall : ∀ l acc, taskResults (foldl schedule_one acc l).1.2 = taskResults acc.1.2).
  { induction l as [|x l IH]; intros acc; simpl; [done|].
    by rewrite IH, schedule_one_results. }
  by rewrite Hall.
Qed.

(** *** A queued task stays queued until it is placed *)






End SchedulerLemmas.

(** A task whose priority has come down to [-maxRetries] is not requeued:
    its failure is recorded, and nothing else changes. *)
Lemma executeTask_catch_finalises (st : TS.Store) (s : TS.TaskScheduler) (task : JS.loc) :
  CN.Task.priority (TS.taskObjs st !!! task) ≤ - TS.maxRetries (TS.config s) →
  TS.executeTask_catch st s task
  = (st,
     TS.with_taskResults
       (<[CN.Task.id (TS.taskObjs st !!! task) :=
            JS.Obj [("error", JS.Str "Max retries exceeded")]]> (TS.taskResults s)) s,
     []).
Proof.
  intros Hle. unfold TS.executeTask_catch.
  apply Z.ltb_ge in Hle. by rewrite Hle.
Qed.

(** The lemma at the task of [retry_setup] after eight requeues, its
    priority down to [-3]. *)
Lemma executeTask_catch_finalises_witness :
  let w := TS.run scenario.retry_setup (scenario.timeouts_from 0 8) in
  TS.executeTask_catch (TS.store w) (TS.scheduler w) 0%nat
  = (TS.store w,
     TS.with_taskResults
       (<[CN.Task.id (TS.taskObjs (TS.store w) !!! 0%nat) :=
            JS.Obj [("error", JS.Str "Max retries exceeded")]]>
          (TS.taskResults (TS.scheduler w))) (TS.scheduler w),
     []).
Proof.
  apply (executeTask_catch_finalises
           (TS.store (TS.run scenario.retry_setup (scenario.timeouts_from 0 8)))
           (TS.scheduler (TS.run scenario.retry_setup (scenario.timeouts_from 0 8))) 0%nat).
  vm_compute. discriminate.
Defined.




Section RoundRobin.

Import compute_node task_scheduler.

Lemma availableNodes_accept st s node :
  node ∈ availableNodes st s → canAcceptTask (nodeObjs st !!! node) = true.
Proof.
  unfold availableNodes. rewrite list_elem_of_In, filter_In. tauto.
Qed.

(** Under round-robin, with an eligible node, [selectNode] returns the
    eligible node at index cursor mod count and moves the cursor by one. *)
Lemma selectNode_round_robin st s task :
  strategy (config s) = round_robin →
  availableNodes st s ≠ [] →
  ∃ node,
    availableNodes st s !! (nextNodeIndex s mod length (availableNodes st s))%nat = Some node
    ∧ selectNode st s task = (Some node, with_nextNodeIndex (S (nextNodeIndex s)) s, st).
Proof.
  intros Hrr Hne. unfold selectNode.
  assert (Hlen : length (availableNodes st s) ≠ 0%nat) by by destruct (availableNodes st s).
  rewrite bool_decide_eq_false_2 by done. rewrite Hrr. unfold selectRoundRobin.
  destruct (lookup_lt_is_Some_2 (availableNodes st s)
              (nextNodeIndex s mod length (availableNodes st s))%nat) as [node Hnode].
  { by apply Nat.mod_upper_bound. }
  exists node. by rewrite Hnode.
Qed.

Lemma assignTask_accepts th n task :
  canAcceptTask n = true → (assignTask th n task).1.1 = true.
Proof. intros H. unfold assignTask. by rewrite H. Qed.

(** Each iteration of the pass either leaves cursor and started list as
    they are, or moves the cursor by one and starts one execution. *)
Lemma schedule_one_round_robin st s started task :
  strategy (config s) = round_robin →
  let r := schedule_one (st, s, started) task in
  config r.1.2 = config s
  ∧ (nextNodeIndex r.1.2 + length started = nextNodeIndex s + length r.2)%nat.
Proof.
  intros Hrr. unfold schedule_one.
  destruct (decide (availableNodes st s = [])) as [Hnil|Hne].
  - unfold selectNode. rewrite Hnil. simpl. done.
  - destruct (selectNode_round_robin st s task Hrr Hne) as (node & Hnode & ->).
    apply list_elem_of_lookup_2, availableNodes_accept in Hnode.
    pose proof (assignTask_accepts (taskObjs st) _ task Hnode) as Hok.
    destruct (assignTask _ _ _) as [[accepted n1] th1]; simpl in *. subst accepted.
    simpl. rewrite length_app; simpl. split; [done|lia].
Qed.

Lemma schedule_all_round_robin q : ∀ st s started,
  strategy (config s) = round_robin →
  let r := foldl schedule_one (st, s, started) q in
  config r.1.2 = config s
  ∧ (nextNodeIndex r.1.2 + length started = nextNodeIndex s + length r.2)%nat.
Proof.
  induction q as [|task q IH]; intros st s started Hrr; [done|].
  change (foldl schedule_one (st, s, started) (task :: q))
    with (foldl schedule_one (schedule_one (st, s, started) task) q).
  pose proof (schedule_one_round_robin st s started task Hrr) as [Hc Hn].
  destruct (schedule_one (st, s, started) task) as [[st1 s1] started1]; simpl in *.
  assert (Hrr1 : strategy (config s1) = round_robin) by by rewrite Hc.
  destruct (IH st1 s1 started1 Hrr1) as [Hc' Hn'].
  cbv zeta. split; [by rewrite Hc'|lia].
Qed.

Lemma scheduleNext_round_robin st s :
  strategy (config s) = round_robin →
  let r := scheduleNext st s in
  config r.1.2 = config s
  ∧ nextNodeIndex r.1.2 = (nextNodeIndex s + length r.2)%nat.
Proof.
  intros Hrr. unfold scheduleNext. case_bool_decide; simpl; [split; [done|lia]|].
  pose proof (schedule_all_round_robin (sort_by_priority (taskObjs st) (taskQueue s)) st
                (with_taskQueue (sort_by_priority (taskObjs st) (taskQueue s)) s) [] Hrr)
    as [Hc Hn].
  simpl in *. split; [done|lia].
Qed.

Lemma after_pass_round_robin rs st s :
  strategy (config s) = round_robin →
  nextNodeIndex s = length rs →
  cursor_counts_placements (after_pass rs (scheduleNext st s)).
Proof.
  intros Hrr Hn. destruct (scheduleNext_round_robin st s Hrr) as [Hc Hn'].
  unfold cursor_counts_placements, after_pass, started_races; simpl.
  rewrite Hc, Hn', length_app, length_fmap. split; [done|lia].
Qed.

Lemma executeTask_catch_round_robin rs st s task :
  strategy (config s) = round_robin →
  nextNodeIndex s = length rs →
  cursor_counts_placements (after_pass rs (executeTask_catch st s task)).
Proof.
  intros Hrr Hn. unfold executeTask_catch. destruct (_ <? _).
  - by apply after_pass_round_robin.
  - unfold cursor_counts_placements, after_pass; simpl. rewrite length_app; simpl.
    split; [done|lia].
Qed.

Lemma step_round_robin w ev :
  cursor_counts_placements w → cursor_counts_placements (step w ev).
Proof.
  intros [Hrr Hn]. destruct ev; simpl; try done.
  - destruct capabilities as [a|]; simpl; done.
  - by apply after_pass_round_robin.
  - by apply after_pass_round_robin.
  - destruct (races w !! k) as [r|] eqn:Hk; [|done].
    destruct (rc_handlerDone r); [done|].
    destruct (executeTask_settle _ _ _) as [n1 settled].
    destruct (rc_decided r).
    + split; simpl; [done|]. by rewrite length_insert.
    + destruct settled.
      * apply after_pass_round_robin; simpl; [done|]. by rewrite length_insert.
      * apply executeTask_catch_round_robin; simpl; [done|]. by rewrite length_insert.
  - destruct (races w !! k) as [r|] eqn:Hk; [|done].
    destruct (rc_decided r); [done|].
    apply executeTask_catch_round_robin; simpl; [done|]. by rewrite length_insert.
Qed.

Lemma run_round_robin evs : ∀ w,
  cursor_counts_placements w → cursor_counts_placements (run w evs).
Proof.
  induction evs as [|ev evs IH]; intros w H; simpl; [done|].
  by apply IH, step_round_robin.
Qed.

End RoundRobin.

(** A round-robin selection is a placement: the chosen node accepts, and
    the execution started is of the task on that node. *)
Lemma schedule_one_round_robin_places st s started task :
  TS.strategy (TS.config s) = TS.round_robin →
  TS.availableNodes st s ≠ [] →
  ∃ node taskId,
    TS.availableNodes st s !! (TS.nextNodeIndex s mod length (TS.availableNodes st s))%nat
      = Some node
    ∧ (TS.schedule_one (st, s, started) task).2
      = started ++ [TS.mkExecution node task taskId]
    ∧ TS.nextNodeIndex (TS.schedule_one (st, s, started) task).1.2 = S (TS.nextNodeIndex s).
Proof.
  intros Hrr Hne. unfold TS.schedule_one.
  destruct (selectNode_round_robin st s task Hrr Hne) as (node & Hnode & ->).
  exists node. pose proof Hnode as Hacc.
  apply list_elem_of_lookup_2, availableNodes_accept in Hacc.
  pose proof (assignTask_accepts (TS.taskObjs st) _ task Hacc) as Hok.
  destruct (CN.assignTask _ _ _) as [[accepted n1] th1]; simpl in *. subst accepted.
  by eexists.
Qed.

(** C6.  Under round-robin the cursor starts at 0 and, after any run, equals
    the number of placements made so far; a placement made at cursor [c]
    goes to the node at index [c mod k] of the [k] nodes that satisfy
    [canAcceptTask()] at that moment, in registry order, and moves the cursor
    to [c + 1].  With A then B registered and both eligible, submitting
    task1 then task2 places task1 on A and task2 on B. *)
Theorem C6_round_robin_placement :
  (∀ (retries tmo : option Z) (random : nat -> Q) (evs : list TS.Event),
      let w := TS.run (TS.init (Some (TS.mkPartial (Some TS.round_robin) retries tmo)) random)
                      evs in
      TS.nextNodeIndex (TS.scheduler w) = length (TS.races w))
  ∧ (∀ (st : TS.Store) (s : TS.TaskScheduler) (started : list TS.Execution) (task : JS.loc),
      TS.strategy (TS.config s) = TS.round_robin →
      TS.availableNodes st s ≠ [] →
      ∃ node taskId,
        TS.availableNodes st s !! (TS.nextNodeIndex s mod length (TS.availableNodes st s))%nat
          = Some node
        ∧ TS.selectNode st s task
          = (Some node, TS.with_nextNodeIndex (S (TS.nextNodeIndex s)) s, st)
        ∧ (TS.schedule_one (st, s, started) task).2
          = started ++ [TS.mkExecution node task taskId])
  ∧ (∀ random : nat -> Q,
      let w0 := scenario.round_robin_setup random in
      let w := TS.run w0 [TS.EvSubmitTask 0%nat; TS.EvSubmitTask 1%nat] in
      TS.nextNodeIndex (TS.scheduler w0) = 0%nat
      ∧ TS.nodes (TS.scheduler w0) = [("A", 0%nat); ("B", 1%nat)]
      ∧ TS.availableNodes (TS.store w0) (TS.scheduler w0) = [0%nat; 1%nat]
      ∧ TS.rc_exec <$> TS.races w
        = [TS.mkExecution 0%nat 0%nat "task1"; TS.mkExecution 1%nat 1%nat "task2"]
      ∧ CN.Task.assignedTo <$> TS.taskObjs (TS.store w) = [Some "A"; Some "B"]
      ∧ CN.getTasks <$> TS.nodeObjs (TS.store w) = [[0%nat]; [1%nat]]).
Proof.
  split; [|split].
  - intros retries tmo random evs w.
    assert (H : TS.cursor_counts_placements w); [|by destruct H].
    apply run_round_robin. split; reflexivity.
  - intros st s started task Hrr Hne.
    destruct (schedule_one_round_robin_places st s started task Hrr Hne)
      as (node & taskId & Hnode & Hstarted & _).
    destruct (selectNode_round_robin st s task Hrr Hne) as (node' & Hnode' & Hsel).
    exists node, taskId. rewrite Hnode in Hnode'. injection Hnode' as <-. done.
  - intros random. vm_compute. repeat split.
Qed.

(** The selection part of the theorem at [round_robin_setup]: cursor 0, two
    eligible nodes, task1. *)
Lemma C6_round_robin_placement_witness :
  ∃ node taskId,
    [0%nat; 1%nat] !! (0 mod 2)%nat = Some node
    ∧ TS.selectNode (TS.store (scenario.round_robin_setup (λ _, 0%Q)))
        (TS.scheduler (scenario.round_robin_setup (λ _, 0%Q))) 0%nat
      = (Some node,
         TS.with_nextNodeIndex 1 (TS.scheduler (scenario.round_robin_setup (λ _, 0%Q))),
         TS.store (scenario.round_robin_setup (λ _, 0%Q)))
    ∧ (TS.schedule_one (TS.store (scenario.round_robin_setup (λ _, 0%Q)),
                        TS.scheduler (scenario.round_robin_setup (λ _, 0%Q)), []) 0%nat).2
      = [] ++ [TS.mkExecution node 0%nat taskId].
Proof.
  apply (proj1 (proj2 C6_round_robin_placement)
           (TS.store (scenario.round_robin_setup (λ _, 0%Q)))
           (TS.scheduler (scenario.round_robin_setup (λ _, 0%Q))) [] 0%nat).
  - reflexivity.
  - vm_compute. discriminate.
Defined.

(** ** Communication *)


Section Heartbeat.

Import communication.

Lemma updatePeer_peers now c peerId :
  peers (updatePeer now c peerId) = JS.Map_set peerId (mkPeer now online) (peers c)
  ∧ config (updatePeer now c peerId) = config c.
Proof. unfold updatePeer. by destruct (JS.Map_get peerId (peers c)). Qed.

Lemma sendHeartbeat_frame now suffix c :
  peers (sendHeartbeat now suffix c) = peers c
  ∧ config (sendHeartbeat now suffix c) = config c.
Proof. unfold sendHeartbeat. by case_bool_decide. Qed.

(** What one scan does to one record. *)
Lemma checkPeerStatus_lookup now c p r :
  JS.Map_get p (peers (checkPeerStatus now c)) = Some r ↔
  ∃ r0, JS.Map_get p (peers c) = Some r0
        ∧ r = if heartbeatInterval (config c) * 3 <? now - lastSeen r0
              then mkPeer (lastSeen r0) offline else r0.
Proof.
  unfold checkPeerStatus; simpl. rewrite Map_get_map.
  destruct (JS.Map_get p (peers c)) as [r0|]; simpl.
  - split; [intros [= <-]; by exists r0 | intros (r1 & [= <-] & ->); done].
  - split; [done | intros (r1 & [=] & _)].
Qed.






(** Every [start()] arms one more timer, whatever is armed already. *)
Lemma start_arms_a_timer tm c :
  intervals (start tm c).1 = intervals tm ++ [(nextHandle tm, heartbeatInterval (config c))]
  ∧ heartbeatTimer (start tm c).2 = Some (nextHandle tm).
Proof. done. Qed.

(** [stop()] twice is [stop()] once: nothing is left to clear. *)
Lemma stop_idempotent tm c : stop (stop tm c).1 (stop tm c).2 = stop tm c.
Proof. unfold stop. destruct (heartbeatTimer c) eqn:H; simpl; by rewrite ?H. Qed.

End Heartbeat.





(** C8, at the failing input.  [start()] twice arms two interval timers and
    keeps the handle of the second only, so it is not [start()] once; the
    [stop()] that follows clears the second and the first keeps firing. *)
Theorem C8_second_start_leaks_a_timer :
  let w0 := CM.init 0 "local" None in
  let once := CM.run w0 [CM.EvStart] in
  let twice := CM.run w0 [CM.EvStart; CM.EvStart] in
  let stopped := CM.run w0 [CM.EvStart; CM.EvStart; CM.EvStop] in
  CM.intervals (CM.timers once) = [(1%nat, 5000)]
  ∧ CM.heartbeatTimer (CM.comm once) = Some 1%nat
  ∧ CM.intervals (CM.timers twice) = [(1%nat, 5000); (2%nat, 5000)]
  ∧ CM.heartbeatTimer (CM.comm twice) = Some 2%nat
  ∧ CM.heartbeatTimer (CM.comm stopped) = None
  ∧ CM.intervals (CM.timers stopped) = [(1%nat, 5000)]
  ∧ CM.intervals (CM.timers (CM.step stopped CM.EvStop)) = [(1%nat, 5000)].
Proof. vm_compute. repeat split. Qed.

(** ** TaskScheduler: the queue order *)

Section QueueOrder.

Import compute_node task_scheduler.

Variable th : list Task.t.

#[local] Abbreviation prio x := (Task.priority (th !!! x)).

Lemma insert_by_priority_perm x q : insert_by_priority th x q ≡ₚ x :: q.
Proof.
  induction q as [|y q IH]; simpl; [done|].
  destruct (_ <=? _); [done|]. rewrite IH. apply Permutation_swap.
Qed.

Lemma sort_by_priority_perm q : sort_by_priority th q ≡ₚ q.
Proof.
  induction q as [|x q IH]; simpl; [done|].
  by rewrite insert_by_priority_perm, IH.
Qed.

Lemma insert_by_priority_sorted x q :
  StronglySorted (λ a b, prio b ≤ prio a) q →
  StronglySorted (λ a b, prio b ≤ prio a) (insert_by_priority th x q).
Proof.
  induction 1 as [|y q Hq IH Hy]; simpl.
  - repeat constructor.
  - destruct (Z.leb_spec (prio y) (prio x)) as [Hle|Hlt].
    + constructor; [by constructor|].
      constructor; [done|]. eapply Forall_impl; [exact Hy|]. simpl. lia.
    + constructor; [done|].
      rewrite insert_by_priority_perm. constructor; [lia|done].
Qed.

Lemma sort_by_priority_sorted q :
  StronglySorted (λ a b, prio b ≤ prio a) (sort_by_priority th q).
Proof.
  induction q as [|x q IH]; simpl; [constructor|].
  by apply insert_by_priority_sorted.
Qed.

Lemma insert_by_priority_filter (p : Z) x q :
  filter (λ y, prio y = p) (insert_by_priority th x q)
  = filter (λ y, prio y = p) (x :: q).
Proof.
  induction q as [|y q IH]; simpl; [done|].
  destruct (Z.leb_spec (prio y) (prio x)) as [Hle|Hlt]; [done|].
  rewrite !filter_cons in *.
  destruct (decide (prio y = p)), (decide (prio x = p)); try lia; by rewrite IH.
Qed.

End QueueOrder.

(** The scheduling pass orders the queue by descending priority and keeps
    the arrival order among tasks of the same priority; no task is lost or
    repeated by the sort. *)
Theorem sort_by_priority_stable (th : list CN.Task.t) (q : list JS.loc) :
  TS.sort_by_priority th q ≡ₚ q
  ∧ StronglySorted
      (λ a b, CN.Task.priority (th !!! b) ≤ CN.Task.priority (th !!! a))
      (TS.sort_by_priority th q)
  ∧ ∀ p : Z,
      filter (λ y, CN.Task.priority (th !!! y) = p) (TS.sort_by_priority th q)
      = filter (λ y, CN.Task.priority (th !!! y) = p) q.
Proof.
  split; [apply sort_by_priority_perm|]. split; [apply sort_by_priority_sorted|].
  intros p. induction q as [|x q IH]; simpl; [done|].
  rewrite insert_by_priority_filter, !filter_cons. by rewrite IH.
Qed.

(** ** TaskScheduler: the placement strategies *)

Section Strategies.

Import compute_node task_scheduler.

Lemma JS_lt_spec (a b : Q) : JS.lt a b = true ↔ (a < b)%Q.
Proof.
  unfold JS.lt. rewrite negb_true_iff, <- not_true_iff_false, Qle_bool_iff.
  split; [apply Qnot_le_lt | apply Qlt_not_le].
Qed.

Variable st : Store.

#[local] Abbreviation ld x := (getLoad (nodeObjs st !!! x)).

#[local] Abbreviation pick :=
  (λ least current : JS.loc, if JS.lt (ld current) (ld least) then current else least).

(** The fold keeps its seed unless a strictly lighter node comes by, and
    then stops at the first lightest one. *)
Lemma least_loaded_fold (rest : list JS.loc) : ∀ least : JS.loc,
  (foldl pick least rest = least ∧ ∀ x, x ∈ rest → (ld least <= ld x)%Q)
  ∨ ∃ l1 l2,
      rest = l1 ++ foldl pick least rest :: l2
      ∧ (ld (foldl pick least rest) < ld least)%Q
      ∧ (∀ x, x ∈ l1 → (ld (foldl pick least rest) < ld x)%Q)
      ∧ (∀ x, x ∈ l2 → (ld (foldl pick least rest) <= ld x)%Q).
Proof.
  induction rest as [|c rest IH]; intros least; simpl.
  - left. split; [done|]. intros x Hx. by apply elem_of_nil in Hx.
  - destruct (JS.lt (ld c) (ld least)) eqn:Hlt.
    + apply JS_lt_spec in Hlt. right.
      destruct (IH c) as [[Heq Hmin]|(l1 & l2 & Hsplit & Hr & H1 & H2)].
      * exists [], rest. rewrite Heq. simpl. split; [done|]. split; [done|].
        split; [|done]. intros x Hx. by apply elem_of_nil in Hx.
      * exists (c :: l1), l2. split; [by rewrite Hsplit at 1|].
        split; [by eapply Qlt_trans|]. split; [|done].
        intros x [->|Hx]%elem_of_cons; [done|by apply H1].
    + apply not_true_iff_false in Hlt. rewrite JS_lt_spec in Hlt.
      apply Qnot_lt_le in Hlt.
      destruct (IH least) as [[Heq Hmin]|(l1 & l2 & Hsplit & Hr & H1 & H2)].
      * left. split; [done|]. intros x [->|Hx]%elem_of_cons; [done|by apply Hmin].
      * right. exists (c :: l1), l2. split; [by rewrite Hsplit at 1|].
        split; [done|]. split; [|done].
        intros x [->|Hx]%elem_of_cons; [by eapply Qlt_le_trans|by apply H1].
Qed.

Lemma selectLeastLoaded_first_lightest (ns : list JS.loc) :
  ns ≠ [] →
  ∃ r l1 l2,
    selectLeastLoaded st ns = Some r
    ∧ ns = l1 ++ r :: l2
    ∧ (∀ x, x ∈ l1 → (ld r < ld x)%Q)
    ∧ (∀ x, x ∈ l2 → (ld r <= ld x)%Q).
Proof.
  destruct ns as [|first rest]; [done|]. intros _. simpl.
  destruct (least_loaded_fold rest first) as [[Heq Hmin]|(l1 & l2 & Hsplit & Hr & H1 & H2)].
  - exists first, [], rest. rewrite Heq. split; [done|]. split; [done|].
    split; [|done]. intros x Hx. by apply elem_of_nil in Hx.
  - eexists _, (first :: l1), l2. split; [done|]. split; [by rewrite Hsplit at 1|].
    split; [|done]. intros x [->|Hx]%elem_of_cons; [done|by apply H1].
Qed.

Lemma selectLeastLoaded_lightest (ns : list JS.loc) (r : JS.loc) :
  selectLeastLoaded st ns = Some r →
  r ∈ ns ∧ ∀ x, x ∈ ns → (ld r <= ld x)%Q.
Proof.
  intros Hsel. destruct (decide (ns = [])) as [->|Hne]; [done|].
  destruct (selectLeastLoaded_first_lightest ns Hne) as (r' & l1 & l2 & Hr & -> & H1 & H2).
  rewrite Hsel in Hr. injection Hr as <-.
  split; [set_solver|].
  intros x [Hx|[->|Hx]%elem_of_cons]%elem_of_app.
  - by apply Qlt_le_weak, H1.
  - apply Qle_refl.
  - by apply H2.
Qed.

End Strategies.

Section Selection.

Import compute_node task_scheduler.

Lemma selectByCapability_capable st ns task r :
  selectByCapability st ns task = Some r →
  (∃ x, x ∈ ns ∧ hasCapability (arrays st) (nodeObjs st !!! x)
                    (Task.type (taskObjs st !!! task)) = true) →
  r ∈ ns
  ∧ hasCapability (arrays st) (nodeObjs st !!! r) (Task.type (taskObjs st !!! task)) = true
  ∧ ∀ x, x ∈ ns →
         hasCapability (arrays st) (nodeObjs st !!! x) (Task.type (taskObjs st !!! task)) = true →
         (getLoad (nodeObjs st !!! r) <= getLoad (nodeObjs st !!! x))%Q.
Proof.
  unfold selectByCapability. set (cap := λ node, hasCapability _ _ _).
  intros Hsel (x & Hx & Hcap).
  assert (Hin : x ∈ List.filter cap ns) by (apply list_elem_of_In, filter_In; by rewrite <- list_elem_of_In).
  destruct (List.filter cap ns) as [|c cs] eqn:Hf; [by apply elem_of_nil in Hin|].
  apply selectLeastLoaded_lightest in Hsel as [Hr Hmin]. rewrite <- Hf in Hr, Hmin.
  apply list_elem_of_In, filter_In in Hr as [Hr Hrc]. apply list_elem_of_In in Hr.
  split; [done|]. split; [done|].
  intros y Hy Hyc. apply Hmin. apply list_elem_of_In, filter_In. by rewrite <- list_elem_of_In.
Qed.

Lemma selectByCapability_fallback st ns task :
  (∀ x, x ∈ ns → hasCapability (arrays st) (nodeObjs st !!! x)
                   (Task.type (taskObjs st !!! task)) = false) →
  selectByCapability st ns task = head ns.
Proof.
  unfold selectByCapability. set (cap := λ node, hasCapability _ _ _). intros Hnone.
  destruct (List.filter cap ns) as [|c cs] eqn:Hf; [done|].
  assert (Hc : c ∈ List.filter cap ns) by (rewrite Hf; left).
  apply list_elem_of_In, filter_In in Hc as [Hc Hcc]. apply list_elem_of_In in Hc.
  unfold cap in Hcc. by rewrite (Hnone c Hc) in Hcc.
Qed.

Lemma selectByCapability_elem st ns task r :
  selectByCapability st ns task = Some r → r ∈ ns.
Proof.
  unfold selectByCapability. set (cap := λ node, hasCapability _ _ _).
  destruct (List.filter cap ns) as [|c cs] eqn:Hf.
  - apply head_Some_elem_of.
  - intros [Hr _]%selectLeastLoaded_lightest. rewrite <- Hf in Hr.
    apply list_elem_of_In, filter_In in Hr as [Hr _]. by apply list_elem_of_In.
Qed.

(** [Math.floor(Math.random() * n)] is an index of an array of length
    [n > 0] when the random number is in [0, 1). *)
Lemma random_index_in_range (r : Q) (n : nat) :
  (0 <= r)%Q → (r < 1)%Q → (0 < n)%nat →
  0 ≤ Qfloor (r * inject_Z (Z.of_nat n)) < Z.of_nat n.
Proof.
  intros H0 H1 Hn.
  assert (Hn' : (0 < inject_Z (Z.of_nat n))%Q) by (rewrite <- (Zlt_Qlt 0); lia).
  split.
  - change 0 with (Qfloor 0). apply Qfloor_resp_le.
    apply Qmult_le_0_compat; [done|by apply Qlt_le_weak].
  - rewrite Zlt_Qlt. eapply Qle_lt_trans; [apply Qfloor_le|].
    rewrite <- (Qmult_1_l (inject_Z (Z.of_nat n))) at 2.
    by apply Qmult_lt_compat_r.
Qed.

Lemma selectNode_elem st s task node s' st' :
  selectNode st s task = (Some node, s', st') → node ∈ availableNodes st s.
Proof.
  unfold selectNode. case_bool_decide; [done|].
  destruct (strategy (config s)); simpl.
  - intros [= Hnode _ _]. by eapply list_elem_of_lookup_2.
  - intros [= Hnode _ _]. by apply selectLeastLoaded_lightest in Hnode as [? _].
  - destruct (_ <? 0); intros [= Hnode _ _]. by eapply list_elem_of_lookup_2.
  - intros [= Hnode _ _]. by eapply selectByCapability_elem.
Qed.

End Selection.

(** Least-loaded picks, among the nodes it is given, the first of those
    with the smallest load: every node before it is strictly more loaded,
    every node after it at least as loaded.  On no node it picks none. *)
Theorem least_loaded_picks_first_lightest (st : TS.Store) (ns : list JS.loc) :
  ns ≠ [] →
  ∃ r l1 l2,
    TS.selectLeastLoaded st ns = Some r
    ∧ ns = l1 ++ r :: l2
    ∧ (∀ x, x ∈ l1 → (CN.getLoad (TS.nodeObjs st !!! r) < CN.getLoad (TS.nodeObjs st !!! x))%Q)
    ∧ (∀ x, x ∈ l2 → (CN.getLoad (TS.nodeObjs st !!! r) <= CN.getLoad (TS.nodeObjs st !!! x))%Q).
Proof. apply selectLeastLoaded_first_lightest. Qed.

(** Capability-based placement: when some node offered has the task's
    type among its capabilities, the node chosen has it too and no capable
    node is less loaded; when none has it, the first node offered is chosen,
    whatever its load. *)
Theorem capability_based_prefers_capable (st : TS.Store) (ns : list JS.loc) (task : JS.loc) :
  let capable x :=
    CN.hasCapability (TS.arrays st) (TS.nodeObjs st !!! x)
                     (CN.Task.type (TS.taskObjs st !!! task)) in
  ((∃ x, x ∈ ns ∧ capable x = true) →
   ∃ r, TS.selectByCapability st ns task = Some r
        ∧ r ∈ ns ∧ capable r = true
        ∧ ∀ x, x ∈ ns → capable x = true →
               (CN.getLoad (TS.nodeObjs st !!! r) <= CN.getLoad (TS.nodeObjs st !!! x))%Q)
  ∧ ((∀ x, x ∈ ns → capable x = false) → TS.selectByCapability st ns task = head ns).
Proof.
  intros capable. split; [|apply selectByCapability_fallback].
  intros (x & Hx & Hcap).
  destruct (TS.selectByCapability st ns task) as [r|] eqn:Hsel.
  - exists r. split; [done|]. eapply selectByCapability_capable; eauto.
  - exfalso. unfold TS.selectByCapability in Hsel.
    assert (Hin : x ∈ List.filter capable ns)
      by (apply list_elem_of_In, filter_In; by rewrite <- list_elem_of_In).
    fold capable in Hsel.
    destruct (List.filter capable ns) as [|c cs] eqn:Hf; [by apply elem_of_nil in Hin|].
    simpl in Hsel. discriminate Hsel.
Qed.

(** Whatever the strategy, a node that [selectNode] returns is one of the
    registered nodes that satisfy [canAcceptTask()], so the [assignTask]
    that follows succeeds.  Without such a node the answer is [null] and
    nothing changes; with one, every strategy finds a node (the random one
    provided [Math.random()] is in [0, 1)). *)
Theorem selectNode_returns_an_eligible_node
    (st : TS.Store) (s : TS.TaskScheduler) (task : JS.loc) :
  (∀ node s' st',
      TS.selectNode st s task = (Some node, s', st') →
      node ∈ TS.availableNodes st s
      ∧ CN.canAcceptTask (TS.nodeObjs st !!! node) = true
      ∧ ∀ th, (CN.assignTask th (TS.nodeObjs st !!! node) task).1.1 = true)
  ∧ (TS.availableNodes st s = [] → TS.selectNode st s task = (None, s, st))
  ∧ (TS.availableNodes st s ≠ [] →
     (TS.strategy (TS.config s) = TS.random →
      (0 <= TS.rng st (TS.draws st))%Q ∧ (TS.rng st (TS.draws st) < 1)%Q) →
     is_Some (TS.selectNode st s task).1.1).
Proof.
  split; [|split].
  - intros node s' st' Hsel. apply selectNode_elem in Hsel.
    pose proof (availableNodes_accept st s node Hsel) as Hacc.
    split; [done|]. split; [done|]. intros th. by apply assignTask_accepts.
  - intros Hnil. unfold TS.selectNode. by rewrite Hnil.
  - intros Hne Hrand. unfold TS.selectNode.
    assert (Hlen : (0 < length (TS.availableNodes st s))%nat).
    { destruct (TS.availableNodes st s); [done|simpl; lia]. }
    rewrite bool_decide_eq_false_2 by lia.
    destruct (TS.strategy (TS.config s)) eqn:Hstrat.
    + simpl. apply lookup_lt_is_Some_2, Nat.mod_upper_bound. lia.
    + simpl. destruct (TS.availableNodes st s); [done|]. by eexists.
    + destruct (Hrand eq_refl) as [H0 H1].
      pose proof (random_index_in_range _ _ H0 H1 Hlen) as [Hlo Hhi].
      unfold TS.selectRandom. set (idx := Qfloor _) in *. cbn [fst].
      destruct (Z.ltb_spec idx 0); [lia|].
      apply lookup_lt_is_Some_2. lia.
    + simpl. unfold TS.selectByCapability.
      destruct (List.filter _ _) as [|c cs]; [|by eexists].
      destruct (TS.availableNodes st s); [done|]. by eexists.
Qed.

(** ** TaskScheduler: what every run maintains *)

Section WorldInvariant.

Import compute_node task_scheduler.

Lemma node_inv_lookup_total (h : list ComputeNode) (i : JS.loc) :
  Forall node_inv h → node_inv (h !!! i).
Proof.
  intros Hall. destruct (decide (i < length h)%nat) as [Hlt|Hge].
  - by apply Forall_lookup_total_1.
  - rewrite list_lookup_total_alt, lookup_ge_None_2 by lia. apply node_inv_new.
Qed.

Lemma schedule_one_node_inv acc task :
  Forall node_inv (nodeObjs acc.1.1) →
  Forall node_inv (nodeObjs (schedule_one acc task).1.1).
Proof.
  destruct acc as [[st s] started]. unfold schedule_one; simpl.
  pose proof (selectNode_frame st s task) as (_ & Hn & _).
  destruct (selectNode st s task) as [[choice s1] st1]; simpl in *.
  intros Hall. rewrite <- Hn in Hall.
  destruct choice as [node|]; simpl; [|done].
  pose proof (node_inv_assignTask (taskObjs st1) _ task
                (node_inv_lookup_total _ node Hall)) as Hinv.
  destruct (assignTask _ _ _) as [[accepted n1] th1]; simpl in *.
  destruct accepted; simpl; [|done]. by apply Forall_insert.
Qed.

Lemma scheduleNext_node_inv st s :
  Forall node_inv (nodeObjs st) → Forall node_inv (nodeObjs (scheduleNext st s).1.1).
Proof.
  intros Hall. unfold scheduleNext. case_bool_decide; [done|].
  set (q := sort_by_priority _ _).
  assert (Hfold : ∀ l acc, Forall node_inv (nodeObjs acc.1.1) →
                           Forall node_inv (nodeObjs (foldl schedule_one acc l).1.1)).
  { induction l as [|x l IH]; intros acc Hacc; simpl; [done|].
    by apply IH, schedule_one_node_inv. }
  by apply Hfold.
Qed.

Lemma executeTask_catch_node_inv st s task :
  Forall node_inv (nodeObjs st) → Forall node_inv (nodeObjs (executeTask_catch st s task).1.1).
Proof.
  intros Hall. unfold executeTask_catch. destruct (_ <? _); [|done].
  by apply scheduleNext_node_inv.
Qed.

Lemma step_node_inv w ev :
  Forall node_inv (nodeObjs (store w)) → Forall node_inv (nodeObjs (store (step w ev))).
Proof.
  intros Hall.
  destruct ev as [id address port caps|id ty body prio now|node|nodeId|node status
                 |task|ts|k outcome|k|]; simpl; try done.
  - destruct caps as [a|]; simpl; (apply Forall_app; split; [done|]);
      apply Forall_singleton, node_inv_new.
  - apply Forall_insert; [done|].
    apply node_inv_setStatus. by apply node_inv_lookup_total.
  - by apply scheduleNext_node_inv.
  - by apply scheduleNext_node_inv.
  - destruct (races w !! k) as [r|]; [|done].
    destruct (rc_handlerDone r); [done|].
    pose proof (node_inv_settle _ (ex_taskId (rc_exec r)) outcome
                  (node_inv_lookup_total _ (ex_node (rc_exec r)) Hall)) as Hinv.
    destruct (executeTask_settle _ _ _) as [n1 settled]; simpl in Hinv.
    assert (Hall' : Forall node_inv (<[ex_node (rc_exec r) := n1]> (nodeObjs (store w))))
      by by apply Forall_insert.
    destruct (rc_decided r); [done|].
    destruct settled; simpl.
    + by apply scheduleNext_node_inv.
    + by apply executeTask_catch_node_inv.
  - destruct (races w !! k) as [r|]; [|done].
    destruct (rc_decided r); [done|]. by apply executeTask_catch_node_inv.
Qed.

Lemma run_node_inv evs : ∀ w,
  Forall node_inv (nodeObjs (store w)) → Forall node_inv (nodeObjs (store (run w evs))).
Proof.
  induction evs as [|ev evs IH]; intros w H; simpl; [done|].
  by apply IH, step_node_inv.
Qed.

End WorldInvariant.

(** However nodes are created, registered and taken offline, tasks
    submitted, and executions settle or time out, the scheduler never puts
    more than 4 tasks on a node: every entry of [getStats().nodes] reports
    at most 4 tasks and a load equal to that count over 4, hence in [0, 1];
    there is one entry per registered node. *)
Theorem scheduler_never_overloads_a_node
    (cfg : option TS.PartialSchedulerConfig) (random : nat -> Q) (evs : list TS.Event) :
  let w := TS.run (TS.init cfg random) evs in
  let stats := TS.getStats (TS.store w) (TS.scheduler w) in
  TS.Stats.totalNodes stats = length (TS.Stats.nodes stats)
  ∧ ∀ e, e ∈ TS.Stats.nodes stats →
         (TS.NodeStat.tasks e ≤ 4)%nat
         ∧ (TS.NodeStat.load e == inject_Z (Z.of_nat (TS.NodeStat.tasks e)) / inject_Z 4)%Q
         ∧ (0 <= TS.NodeStat.load e)%Q ∧ (TS.NodeStat.load e <= 1)%Q.
Proof.
  intros w stats.
  assert (Hall : Forall CN.node_inv (TS.nodeObjs (TS.store w))).
  { apply run_node_inv. simpl. constructor. }
  split.
  - unfold stats, TS.getStats; simpl. by rewrite !length_fmap.
  - intros e He. unfold stats, TS.getStats in He; simpl in He.
    apply list_elem_of_fmap in He as (node & -> & _); simpl.
    destruct (node_inv_lookup_total _ node Hall) as (_ & _ & Hsize & Hload).
    unfold CN.getTaskCount. split; [done|]. split; [done|].
    exact (quarter_bounds _ _ Hsize Hload).
Qed.

(** ** TaskScheduler: what a pass does to the queue *)

Section PassConservation.

Import compute_node task_scheduler.

Lemma remove_first_perm (x : JS.loc) (l : list JS.loc) :
  x ∈ l → l ≡ₚ x :: JS.remove_first x l.
Proof.
  induction l as [|y l IH]; simpl; [by intros ?%elem_of_nil|].
  intros Hin. destruct (decide (x = y)) as [->|Hne]; [done|].
  apply elem_of_cons in Hin as [?|Hin]; [done|].
  rewrite (IH Hin) at 1. apply Permutation_swap.
Qed.

(** An iteration of the pass either leaves queue and started list alone or
    takes the task out of the queue and starts it. *)
Lemma schedule_one_cases st s started task :
  let r := schedule_one (st, s, started) task in
  (taskQueue r.1.2 = taskQueue s ∧ r.2 = started)
  ∨ ∃ node taskId,
      taskQueue r.1.2 = JS.remove_first task (taskQueue s)
      ∧ r.2 = started ++ [mkExecution node task taskId].
Proof.
  unfold schedule_one.
  pose proof (selectNode_frame st s task) as (_ & _ & Hq & _).
  destruct (selectNode st s task) as [[choice s1] st1]; simpl in *.
  destruct choice as [node|]; simpl; [|by left].
  destruct (assignTask _ _ _) as [[accepted n1] th1]; simpl.
  destruct accepted; simpl; [|by left].
  right. exists node, (Task.id (th1 !!! task)). by rewrite Hq.
Qed.

Lemma schedule_all_conserves (rest : list JS.loc) : ∀ st s started kept,
  taskQueue s ≡ₚ kept ++ rest →
  let r := foldl schedule_one (st, s, started) rest in
  taskQueue r.1.2 ++ (ex_task <$> r.2) ≡ₚ taskQueue s ++ (ex_task <$> started).
Proof.
  induction rest as [|x rest IH]; intros st s started kept Hq; [done|].
  change (foldl schedule_one (st, s, started) (x :: rest))
    with (foldl schedule_one (schedule_one (st, s, started) x) rest).
  pose proof (schedule_one_cases st s started x) as Hcases.
  destruct (schedule_one (st, s, started) x) as [[st1 s1] started1]; simpl in Hcases.
  destruct Hcases as [[Hq1 ->]|(node & taskId & Hq1 & ->)].
  - cbv zeta. rewrite (IH st1 s1 started (kept ++ [x])); [by rewrite Hq1|].
    rewrite Hq1, Hq, <- app_assoc. done.
  - assert (Hx : x ∈ taskQueue s) by (rewrite Hq; set_solver).
    pose proof (remove_first_perm x _ Hx) as Hperm.
    cbv zeta. rewrite (IH st1 s1 _ kept).
    + rewrite Hq1, fmap_app; simpl. rewrite Hperm at 2.
      rewrite (Permutation_app_comm (ex_task <$> started) [x]). simpl.
      by rewrite Permutation_middle.
    + rewrite Hq1. apply (Permutation_cons_inv (a := x)).
      rewrite <- Hperm, Hq. by rewrite Permutation_middle.
Qed.

Lemma scheduleNext_conserves st s :
  taskQueue (scheduleNext st s).1.2 ++ (ex_task <$> (scheduleNext st s).2) ≡ₚ taskQueue s.
Proof.
  unfold scheduleNext. case_bool_decide; simpl; [by rewrite app_nil_r|].
  rewrite (schedule_all_conserves _ st _ [] []); simpl.
  - by rewrite app_nil_r, sort_by_priority_perm.
  - done.
Qed.

Lemma availableNodes_with_taskQueue st q s :
  availableNodes st (with_taskQueue q s) = availableNodes st s.
Proof. done. Qed.

Lemma schedule_all_idle (q : list JS.loc) st s :
  availableNodes st s = [] → foldl schedule_one (st, s, []) q = (st, s, []).
Proof.
  intros Hnil. induction q as [|x q IH]; simpl; [done|].
  unfold selectNode. rewrite Hnil. simpl. exact IH.
Qed.

End PassConservation.

(** A scheduling pass neither loses nor repeats a task: the queue it
    leaves, together with the tasks of the executions it starts, is a
    rearrangement of the queue it found.  So is the queue with the new task
    added, for [submitTask]. *)
Theorem scheduling_pass_conserves_tasks
    (st : TS.Store) (s : TS.TaskScheduler) (task : JS.loc) :
  TS.taskQueue (TS.scheduleNext st s).1.2 ++ (TS.ex_task <$> (TS.scheduleNext st s).2)
    ≡ₚ TS.taskQueue s
  ∧ TS.taskQueue (TS.submitTask st s task).1.2 ++ (TS.ex_task <$> (TS.submitTask st s task).2)
    ≡ₚ TS.taskQueue s ++ [task].
Proof.
  split; [apply scheduleNext_conserves|].
  unfold TS.submitTask. by rewrite scheduleNext_conserves.
Qed.

(** With no node that can accept a task (none registered, all offline or
    all full), a pass starts nothing and touches neither the nodes nor the
    results: it only sorts the queue, so submitted tasks wait in priority
    order. *)
Theorem pass_without_eligible_node_only_sorts (st : TS.Store) (s : TS.TaskScheduler) :
  TS.availableNodes st s = [] →
  TS.scheduleNext st s
  = (st, TS.with_taskQueue (TS.sort_by_priority (TS.taskObjs st) (TS.taskQueue s)) s, []).
Proof.
  intros Hnil. unfold TS.scheduleNext. case_bool_decide as Hlen.
  - destruct s as [ns q c i r]; simpl in *. by destruct q.
  - by apply schedule_all_idle.
Qed.

(** ** TaskScheduler: the retry budget *)

Section RetryBudget.

Import compute_node task_scheduler.






End RetryBudget.


(** ** More on insertion-ordered maps *)

Section MapLookups.

Context {V : Type}.
Implicit Types (m : list (string * V)) (k : string).

Lemma Map_get_None k m : JS.Map_get k m = None ↔ k ∉ m.*1.
Proof.
  induction m as [|[k' v'] m IH]; simpl.
  - split; [intros _ ?%elem_of_nil; done|done].
  - rewrite not_elem_of_cons. destruct (decide (k = k')) as [->|Hne]; [|tauto].
    split; [done|tauto].
Qed.

Lemma Map_has_spec k m : JS.Map_has k m = true ↔ is_Some (JS.Map_get k m).
Proof.
  unfold JS.Map_has. rewrite bool_decide_eq_true, <- not_eq_None_Some, Map_get_None.
  split; [tauto|]. intros H. by destruct (decide (k ∈ m.*1)).
Qed.

Lemma Map_set_length_exact k v m :
  length (JS.Map_set k v m) = if JS.Map_has k m then length m else S (length m).
Proof.
  rewrite <- (length_fmap fst (JS.Map_set k v m)), Map_set_keys.
  unfold JS.Map_has. case_bool_decide; rewrite ?length_app, length_fmap; simpl; lia.
Qed.

Lemma Map_delete_absent k m : k ∉ m.*1 → JS.Map_delete k m = m.
Proof.
  induction m as [|[k' v'] m IH]; simpl; [done|].
  rewrite not_elem_of_cons. intros [Hne Hnin].
  rewrite bool_decide_eq_false_2 by done. simpl. by rewrite IH.
Qed.

End MapLookups.

(** ** TaskScheduler: the registry *)

(** The registry is keyed by node id.  Registering a node makes it the
    node under its id, in place if the id was registered already (the count
    of nodes does not change then) and at the end otherwise; other ids keep
    their nodes.  Unregistering reports whether the id was registered,
    removes it and nothing else. *)
Theorem registry_is_keyed_by_node_id
    (st : TS.Store) (s : TS.TaskScheduler) (node : JS.loc) (other : string) :
  let nodeId := CN.NodeInfo.id (CN.getInfo (TS.nodeObjs st !!! node)) in
  let registered := TS.registerNode st s node in
  JS.Map_get nodeId (TS.nodes registered) = Some node
  ∧ (other ≠ nodeId → JS.Map_get other (TS.nodes registered) = JS.Map_get other (TS.nodes s))
  ∧ length (TS.nodes registered)
    = (if JS.Map_has nodeId (TS.nodes s) then length (TS.nodes s) else S (length (TS.nodes s)))
  ∧ (TS.nodes registered).*1
    = (if JS.Map_has nodeId (TS.nodes s) then (TS.nodes s).*1 else (TS.nodes s).*1 ++ [nodeId])
  ∧ ((TS.unregisterNode s other).1 = true ↔ is_Some (JS.Map_get other (TS.nodes s)))
  ∧ JS.Map_get other (TS.nodes (TS.unregisterNode s other).2) = None
  ∧ (other ≠ nodeId →
     JS.Map_get nodeId (TS.nodes (TS.unregisterNode registered other).2) = Some node)
  ∧ ((TS.unregisterNode s other).1 = false → (TS.unregisterNode s other).2 = s).
Proof.
  intros nodeId registered. unfold registered, TS.registerNode, TS.unregisterNode; simpl.
  fold nodeId. repeat split.
  - apply Map_get_set_eq.
  - intros Hne. by apply Map_get_set_ne.
  - apply Map_set_length_exact.
  - apply Map_set_keys.
  - apply Map_has_spec.
  - apply Map_has_spec.
  - rewrite Map_get_delete. by rewrite decide_True.
  - intros Hne. rewrite Map_get_delete, decide_False by done. apply Map_get_set_eq.
  - intros Hnot. destruct s as [ns q c i r]; unfold TS.with_nodes; simpl in *. f_equal.
    apply Map_delete_absent. apply Map_get_None.
    destruct (JS.Map_get other ns) eqn:Hget; [|done].
    assert (JS.Map_has other ns = true) by (apply Map_has_spec; by rewrite Hget). congruence.
Qed.

(** ** ComputeNode: assignment, execution, status *)

(** [assignTask] succeeds exactly when the node is not offline and holds
    fewer tasks than its ceiling.  A refusal changes nothing.  On success the
    task is the node's task under its id, is marked as assigned to the node,
    and the node is busy; the count grows by one, unless a task with the same
    id was active already: then that entry is replaced and no slot is used. *)
Theorem assignTask_effect (th : list CN.Task.t) (n : CN.ComputeNode) (task : JS.loc) :
  (task < length th)%nat →
  let r := CN.assignTask th n task in
  let taskId := CN.Task.id (th !!! task) in
  (r.1.1 = true ↔
     CN.NodeInfo.status (CN.info n) ≠ CN.offline
     ∧ (CN.getTaskCount n < CN.maxConcurrentTasks n)%nat)
  ∧ (r.1.1 = false → r.1.2 = n ∧ r.2 = th)
  ∧ (r.1.1 = true →
       JS.Map_get taskId (CN.tasks r.1.2) = Some task
       ∧ CN.executeTask_begin r.1.2 taskId = JS.Resolved task
       ∧ CN.NodeInfo.status (CN.info r.1.2) = CN.busy
       ∧ CN.Task.assignedTo (r.2 !!! task) = Some (CN.NodeInfo.id (CN.info n))
       ∧ CN.getTaskCount r.1.2
         = (if JS.Map_has taskId (CN.tasks n) then CN.getTaskCount n
            else S (CN.getTaskCount n))
       ∧ ∀ l, l ≠ task → r.2 !!! l = th !!! l).
Proof.
  intros Hvalid r taskId. unfold r, CN.assignTask.
  destruct (CN.canAcceptTask n) eqn:Hacc; simpl.
  - apply canAcceptTask_spec in Hacc. split; [done|]. split; [done|]. intros _.
    rewrite list_lookup_total_insert_eq by done. simpl. fold taskId.
    assert (Hget : JS.Map_get taskId (JS.Map_set taskId task (CN.tasks n)) = Some task)
      by apply Map_get_set_eq.
    assert (Hlen : (0 < length (JS.Map_set taskId task (CN.tasks n)))%nat).
    { pose proof (Map_set_length_exact taskId task (CN.tasks n)).
      destruct (JS.Map_has taskId (CN.tasks n)) eqn:Hhas; [|lia].
      apply Map_has_spec in Hhas as [v Hv]. destruct (CN.tasks n); [done|simpl in *; lia]. }
    rewrite bool_decide_eq_true_2 by done. simpl.
    unfold CN.executeTask_begin, CN.getTaskCount; simpl. rewrite Hget.
    repeat split; try done.
    + apply Map_set_length_exact.
    + intros l Hl. by rewrite list_lookup_total_insert_ne.
  - split; [|done]. split; [done|]. intros Hcan. apply canAcceptTask_spec in Hcan. congruence.
Qed.

(** [executeTask] fails fast, with ["Task <id> not found"], for an id the
    node does not hold; that is the case of any id once an execution of it has
    settled, so a second [executeTask] of the same id after the first has
    finished is refused. *)
Theorem executeTask_fails_fast_on_unknown_id
    (n : CN.ComputeNode) (taskId : string) (outcome : JS.Settled JS.Value) :
  (JS.Map_get taskId (CN.tasks n) = None →
   CN.executeTask_begin n taskId = JS.Rejected ("Task " +:+ taskId +:+ " not found"))
  ∧ CN.executeTask_begin (CN.executeTask_settle n taskId outcome).1 taskId
    = JS.Rejected ("Task " +:+ taskId +:+ " not found")
  ∧ ∀ other, other ≠ taskId →
      CN.executeTask_begin (CN.executeTask_settle n taskId outcome).1 other
      = CN.executeTask_begin n other.
Proof.
  unfold CN.executeTask_begin. split; [by intros ->|]. split.
  - destruct outcome; simpl; [case_bool_decide|]; simpl;
      rewrite Map_get_delete; by rewrite decide_True.
  - intros other Hne. destruct outcome; simpl; [case_bool_decide|]; simpl;
      rewrite Map_get_delete; by rewrite decide_False.
Qed.

Section NodeStatus.

Import compute_node.

Lemma busy_while_loaded_step w op :
  is_setStatus op = false →
  busy_while_loaded (nw_node w) → busy_while_loaded (nw_node (node_step w op)).
Proof.
  intros Hop [Hon Hbusy]. destruct op as [s|task|taskId|k outcome|c|c]; simpl; try done.
  - unfold assignTask. destruct (canAcceptTask (nw_node w)) eqn:Hacc; simpl; [|done].
    set (m := JS.Map_set _ _ _).
    assert (Hlen : (0 < length m)%nat).
    { unfold m. pose proof (Map_set_length_exact (Task.id
        (<[task:=Task.with_assignedTo (NodeInfo.id (info (nw_node w))) (nw_tasks w !!! task)]>
           (nw_tasks w) !!! task)) task (tasks (nw_node w))) as Hl.
      destruct (JS.Map_has _ _) eqn:Hhas; [|lia].
      apply Map_has_spec in Hhas as [v Hv].
      destruct (tasks (nw_node w)); [done|simpl in *; lia]. }
    rewrite bool_decide_eq_true_2 by done. split; simpl; done.
  - by destruct (executeTask_begin _ _).
  - destruct (nw_calls w !! k) as [[taskId []]|]; simpl; try done.
    destruct outcome; simpl.
    + case_bool_decide as Hempty; simpl; [split; [done|]|split; [done|]].
      * intros Hne. destruct (JS.Map_delete _ _); done.
      * intros _. apply Hbusy. intros Hnil. rewrite Hnil in Hempty. done.
    + split; [done|]. intros Hne. apply Hbusy. intros Hnil. by rewrite Hnil in Hne.
Qed.

End NodeStatus.

(** A node on which [setStatus] is never called does not go offline, and is
    busy whenever it holds a task; so it accepts tasks exactly while it holds
    fewer than 4. *)
Theorem node_is_busy_while_it_holds_tasks (id address : string) (port : Z) (caps : JS.loc)
    (th : list CN.Task.t) (ah : list (list string)) (ops : list CN.NodeOp) :
  forallb (λ op, negb (CN.is_setStatus op)) ops = true →
  let n := CN.nw_node (CN.node_run (CN.node_init (CN.new id address port caps) th ah) ops) in
  CN.NodeInfo.status (CN.info n) ≠ CN.offline
  ∧ ((0 < CN.getTaskCount n)%nat → CN.NodeInfo.status (CN.info n) = CN.busy)
  ∧ (CN.canAcceptTask n = true ↔ (CN.getTaskCount n < 4)%nat).
Proof.
  intros Hops n.
  assert (Hinv : CN.node_inv n) by (unfold n; apply node_inv_run; simpl; apply node_inv_new).
  assert (Hbusy : CN.busy_while_loaded n).
  { unfold n. clear n Hinv.
    assert (H0 : CN.busy_while_loaded
                   (CN.nw_node (CN.node_init (CN.new id address port caps) th ah)))
      by (split; simpl; done).
    revert H0. generalize (CN.node_init (CN.new id address port caps) th ah).
    induction ops as [|op ops IH]; intros w Hw; simpl; [done|].
    simpl in Hops. apply andb_true_iff in Hops as [Hop Hops].
    apply IH; [done|]. apply busy_while_loaded_step; [|done].
    by apply negb_true_iff in Hop. }
  destruct Hbusy as [Hon Hb]. destruct Hinv as (Hmax & _).
  split; [done|]. split.
  - intros Hpos. apply Hb. unfold CN.getTaskCount in Hpos.
    destruct (CN.tasks n); [simpl in Hpos; lia|done].
  - rewrite canAcceptTask_spec, Hmax. unfold CN.getTaskCount. tauto.
Qed.

(** When the handler of the last task a node holds settles: on success the
    node becomes idle and accepts tasks again, even if it had been set
    offline in the meantime; on failure the task is removed as well but the
    status is left exactly as it was. *)
Theorem last_completion_resets_status_only_on_success
    (id address : string) (port : Z) (caps : JS.loc)
    (th : list CN.Task.t) (ah : list (list string)) (ops : list CN.NodeOp)
    (k : nat) (taskId : string) (result : JS.Value) (error : string) :
  let w := CN.node_run (CN.node_init (CN.new id address port caps) th ah) ops in
  CN.nw_calls w !! k = Some (taskId, false) →
  JS.Map_delete taskId (CN.tasks (CN.nw_node w)) = [] →
  let ok := CN.nw_node (CN.node_step w (CN.OpSettle k (JS.Resolved result))) in
  let failed := CN.nw_node (CN.node_step w (CN.OpSettle k (JS.Rejected error))) in
  CN.NodeInfo.status (CN.info ok) = CN.idle
  ∧ CN.canAcceptTask ok = true
  ∧ CN.getTaskCount failed = 0%nat
  ∧ (CN.getLoad failed == 0)%Q
  ∧ CN.NodeInfo.status (CN.info failed) = CN.NodeInfo.status (CN.info (CN.nw_node w)).
Proof.
  intros w Hcall Hlast ok failed.
  assert (Hinv : CN.node_inv (CN.nw_node w))
    by (unfold w; apply node_inv_run; simpl; apply node_inv_new).
  destruct Hinv as (Hmax & _).
  unfold ok, failed; simpl. rewrite Hcall; simpl. rewrite Hlast; simpl.
  unfold CN.canAcceptTask, CN.getTaskCount, CN.getLoad; simpl. rewrite Hmax.
  repeat split; done.
Qed.

(** ** ComputeNode: capabilities *)

Section RemoveFirst.

Context {A : Type} `{EqDecision A}.
Implicit Types (x y : A) (l : list A).

Lemma remove_first_first x l1 l2 :
  x ∉ l1 → JS.remove_first x (l1 ++ x :: l2) = l1 ++ l2.
Proof.
  induction l1 as [|y l1 IH]; simpl; intros Hnin.
  - by rewrite decide_True.
  - apply not_elem_of_cons in Hnin as [Hne Hnin].
    rewrite decide_False by done. by rewrite IH.
Qed.

Lemma remove_first_absent x l : x ∉ l → JS.remove_first x l = l.
Proof.
  induction l as [|y l IH]; simpl; [done|]. intros [Hne Hnin]%not_elem_of_cons.
  rewrite decide_False by done. by rewrite IH.
Qed.

Lemma elem_of_remove_first_ne x y l : y ≠ x → (y ∈ JS.remove_first x l ↔ y ∈ l).
Proof.
  intros Hne. induction l as [|z l IH]; simpl; [done|].
  destruct (decide (x = z)) as [->|Hxz]; rewrite ?elem_of_cons; [|rewrite IH; tauto].
  split; [tauto|]. intros [->|?]; done.
Qed.

Lemma remove_first_NoDup x l :
  NoDup l → (x ∉ JS.remove_first x l) ∧ NoDup (JS.remove_first x l).
Proof.
  induction 1 as [|y l Hy Hl IH]; simpl; [split; [apply not_elem_of_nil|constructor]|].
  destruct (decide (x = y)) as [->|Hne]; [done|].
  destruct IH as [IH1 IH2]. split.
  - rewrite not_elem_of_cons. done.
  - constructor; [|done]. by rewrite elem_of_remove_first_ne.
Qed.

End RemoveFirst.

(** The capability mutators treat the array as a set, as far as they go.
    [addCapability] makes the capability present, adds nothing when it is
    already there (so it is idempotent and introduces no duplicate), and is
    undone by [removeCapability].  [removeCapability] takes out the first
    occurrence only: on an array without duplicates the capability is gone, on
    one that holds it twice (the constructor takes any array) it is still
    there.  Neither touches another capability. *)
Theorem capability_mutators (ah : list (list string)) (n : CN.ComputeNode) (c : string) :
  (CN.NodeInfo.capabilities (CN.info n) < length ah)%nat →
  let a := CN.NodeInfo.capabilities (CN.info n) in
  CN.hasCapability (CN.addCapability ah n c) n c = true
  ∧ CN.addCapability (CN.addCapability ah n c) n c = CN.addCapability ah n c
  ∧ (NoDup (ah !!! a) → NoDup (CN.addCapability ah n c !!! a))
  ∧ (CN.hasCapability ah n c = false →
     CN.removeCapability (CN.addCapability ah n c) n c = ah)
  ∧ (NoDup (ah !!! a) → CN.hasCapability (CN.removeCapability ah n c) n c = false)
  ∧ (∀ l1 l2, ah !!! a = l1 ++ c :: l2 → c ∉ l1 →
              CN.removeCapability ah n c !!! a = l1 ++ l2)
  ∧ (CN.hasCapability ah n c = false → CN.removeCapability ah n c = ah)
  ∧ (∀ c', c' ≠ c →
           CN.hasCapability (CN.addCapability ah n c) n c' = CN.hasCapability ah n c'
           ∧ CN.hasCapability (CN.removeCapability ah n c) n c' = CN.hasCapability ah n c').
Proof.
  intros Hvalid a.
  assert (Hlook : ah !! a = Some (ah !!! a)) by by apply list_lookup_lookup_total_lt.
  assert (Hadd : CN.hasCapability (CN.addCapability ah n c) n c = true).
  { unfold CN.addCapability. destruct (CN.hasCapability ah n c) eqn:Hhas; [done|].
    unfold CN.hasCapability. fold a. rewrite list_lookup_total_insert_eq by done.
    apply bool_decide_eq_true. set_solver. }
  split; [done|]. split; [|split; [|split; [|split; [|split; [|split]]]]].
  - unfold CN.addCapability at 1. by rewrite Hadd.
  - intros Hnd. unfold CN.addCapability.
    destruct (CN.hasCapability ah n c) eqn:Hhas; [done|]. fold a.
    rewrite list_lookup_total_insert_eq by done.
    apply bool_decide_eq_false in Hhas. fold a in Hhas.
    apply NoDup_app. split; [done|]. split; [|apply NoDup_singleton].
    intros x Hx ->%list_elem_of_singleton. done.
  - intros Hhas. unfold CN.addCapability, CN.removeCapability. rewrite Hhas. fold a.
    apply bool_decide_eq_false in Hhas. fold a in Hhas.
    rewrite list_lookup_total_insert_eq, list_insert_insert_eq by done.
    rewrite (remove_first_first c (ah !!! a) []) by done.
    rewrite app_nil_r. by apply list_insert_id.
  - intros Hnd. unfold CN.hasCapability, CN.removeCapability. fold a.
    rewrite list_lookup_total_insert_eq by done.
    apply bool_decide_eq_false. by apply remove_first_NoDup.
  - intros l1 l2 Hsplit Hnin. unfold CN.removeCapability. fold a.
    rewrite list_lookup_total_insert_eq by done. rewrite Hsplit.
    by apply remove_first_first.
  - intros Hhas. unfold CN.removeCapability. fold a.
    apply bool_decide_eq_false in Hhas. fold a in Hhas.
    rewrite remove_first_absent by done. by apply list_insert_id.
  - intros c' Hne. split.
    + unfold CN.addCapability. destruct (CN.hasCapability ah n c) eqn:Hhas; [done|].
      unfold CN.hasCapability. fold a. rewrite list_lookup_total_insert_eq by done.
      apply bool_decide_ext. set_solver.
    + unfold CN.hasCapability, CN.removeCapability. fold a.
      rewrite list_lookup_total_insert_eq by done.
      apply bool_decide_ext. by apply elem_of_remove_first_ne.
Qed.

(** ** TaskScheduler: an execution that lost its race *)

(** An execution whose race was decided by the timeout still runs to its
    end on the node.  When its handler settles, nothing changes in the
    scheduler and no other execution is touched, but the node drops the task
    id from its active set: also when another execution of a task with that
    id, such as the retry, is in flight on the same node.  A timeout that
    fires after the race was decided changes nothing at all. *)
Theorem late_completion_frees_the_slot_by_id
    (w : TS.World) (k j : nat) (r r' : TS.Race) (outcome : JS.Settled JS.Value) :
  TS.races w !! k = Some r →
  TS.rc_decided r = true →
  TS.rc_handlerDone r = false →
  (TS.ex_node (TS.rc_exec r) < length (TS.nodeObjs (TS.store w)))%nat →
  TS.races w !! j = Some r' →
  j ≠ k →
  let w' := TS.step w (TS.EvHandlerSettles k outcome) in
  TS.scheduler w' = TS.scheduler w
  ∧ TS.taskObjs (TS.store w') = TS.taskObjs (TS.store w)
  ∧ TS.races w' !! j = Some r'
  ∧ length (TS.races w') = length (TS.races w)
  ∧ JS.Map_get (TS.ex_taskId (TS.rc_exec r))
      (CN.tasks (TS.nodeObjs (TS.store w') !!! TS.ex_node (TS.rc_exec r))) = None
  ∧ TS.step w (TS.EvTimeoutFires k) = w.
Proof.
  intros Hk Hdec Hdone Hvalid Hj Hne w'. unfold w'; simpl. rewrite Hk, Hdone, Hdec.
  pose proof (executeTask_settle_removes
                (TS.nodeObjs (TS.store w) !!! TS.ex_node (TS.rc_exec r))
                (TS.ex_taskId (TS.rc_exec r)) outcome) as Hgone.
  destruct (CN.executeTask_settle _ _ _) as [n1 settled]; simpl in *.
  rewrite list_lookup_insert_ne, length_insert by done.
  rewrite list_lookup_total_insert_eq by done. done.
Qed.

(** ** Communication: timers *)

Section Timers.

Import communication.

Lemma clearInterval_one (h : nat) (l : list (nat * Z)) :
  NoDup l.*1 → h ∈ l.*1 →
  S (length (List.filter (λ t, negb (bool_decide (t.1 = h))) l)) = length l
  ∧ NoDup (List.filter (λ t, negb (bool_decide (t.1 = h))) l).*1
  ∧ ∀ x, x ∈ (List.filter (λ t, negb (bool_decide (t.1 = h))) l).*1 → x ∈ l.*1.
Proof.
  induction l as [|[h' p] l IH]; simpl; [by intros _ ?%elem_of_nil|].
  intros [Hnin Hnd]%NoDup_cons Hin.
  destruct (decide (h' = h)) as [->|Hne].
  - rewrite bool_decide_eq_true_2 by done. simpl.
    assert (Hid : List.filter (λ t : nat * Z, negb (bool_decide (t.1 = h))) l = l).
    { clear -Hnin. induction l as [|[h' p'] l IH]; simpl; [done|].
      apply not_elem_of_cons in Hnin as [Hne Hnin].
      rewrite bool_decide_eq_false_2 by done. simpl. by rewrite IH. }
    rewrite Hid. split; [done|]. split; [done|]. intros x Hx. by right.
  - rewrite bool_decide_eq_false_2 by done. simpl.
    apply elem_of_cons in Hin as [?|Hin]; [done|].
    destruct (IH Hnd Hin) as (Hlen & Hnd' & Hsub).
    split; [lia|]. split.
    + constructor; [|done]. intros Hx. by apply Hnin, Hsub.
    + intros x [->|Hx]%elem_of_cons; [left|right; by apply Hsub].
Qed.

(** The timers armed beyond the one whose handle the instance holds. *)
#[local] Abbreviation beyond w :=
  (length (intervals (timers w)) - (if holds_timer (comm w) then 1 else 0))%nat.

#[local] Abbreviation held w := (holds_timer (comm w)).

Lemma handleMessage_heartbeatTimer now c message :
  heartbeatTimer (handleMessage now c message).1 = heartbeatTimer c.
Proof.
  unfold handleMessage.
  destruct (match messageHandlers c (type message) with
            | Some handler => match handler message with Returns => None | Throws e => Some e end
            | None => None end); simpl; [done|].
  case_bool_decide; [|done]. unfold updatePeer. by destruct (JS.Map_get _ _).
Qed.

Lemma timers_wf_same w w' :
  timers w' = timers w → heartbeatTimer (comm w') = heartbeatTimer (comm w) →
  timers_wf w → timers_wf w'.
Proof. intros Ht Hh. unfold timers_wf. by rewrite Ht, Hh. Qed.

Lemma timers_step w ev :
  timers_wf w →
  timers_wf (step w ev)
  ∧ beyond (step w ev)
    = (beyond w + match ev with EvStart => if held w then 1 else 0 | _ => 0 end)%nat
  ∧ held (step w ev)
    = match ev with EvStart => true | EvStop => false | _ => held w end.
Proof.
  intros Hwf. pose proof Hwf as (Hnd & Hlt & Hcur).
  assert (Hpos : ∀ h, heartbeatTimer (comm w) = Some h →
                      (0 < length (intervals (timers w)))%nat).
  { intros h Hh. apply Hcur in Hh. destruct (intervals (timers w)); [by apply elem_of_nil in Hh|].
    simpl. lia. }
  destruct ev as [ms| | |handle sfx|recipient body ty sfx|messageId|ty handler
                 |message|peerId|peerId]; simpl.
  - unfold holds_timer; simpl. split; [by apply (timers_wf_same w)|]. split; [lia|done].
  - split; [|split].
    + split; [|split]; simpl.
      * rewrite fmap_app. apply NoDup_app. split; [done|]. split; [|apply NoDup_singleton].
        intros x Hx ->%list_elem_of_singleton. apply Hlt in Hx. simpl in Hx. lia.
      * intros h. rewrite fmap_app, elem_of_app.
        intros [Hh|Hh%list_elem_of_singleton]; [apply Hlt in Hh|simpl in Hh]; lia.
      * intros h [= <-]. rewrite fmap_app. set_solver.
    + rewrite length_app; unfold holds_timer; simpl.
      destruct (heartbeatTimer (comm w)) as [h|] eqn:Hh; [|lia].
      pose proof (Hpos h eq_refl). lia.
    + done.
  - unfold stop, holds_timer. destruct (heartbeatTimer (comm w)) as [h|] eqn:Hh; simpl.
    + destruct (clearInterval_one h (intervals (timers w)) Hnd (Hcur h eq_refl))
        as (Hlen & Hnd' & Hsub).
      split; [|split; [|done]].
      * split; [done|]. split; [|done]. intros x Hx. by apply Hlt, Hsub.
      * lia.
    + rewrite Hh. split; [by apply (timers_wf_same w)|]. split; [lia|done].
  - case_bool_decide; simpl; [|split; [by apply (timers_wf_same w)|]; split; [lia|done]].
    assert (Hhb : heartbeatTimer (heartbeat_tick (clock w) sfx (comm w))
                  = heartbeatTimer (comm w)).
    { unfold heartbeat_tick, sendHeartbeat. by case_bool_decide. }
    unfold holds_timer. rewrite Hhb. split; [|split; [lia|done]].
    by apply (timers_wf_same w).
  - unfold holds_timer; simpl. split; [by apply (timers_wf_same w)|]. split; [lia|done].
  - unfold holds_timer; simpl. split; [by apply (timers_wf_same w)|]. split; [lia|done].
  - unfold holds_timer; simpl. split; [by apply (timers_wf_same w)|]. split; [lia|done].
  - unfold holds_timer. rewrite handleMessage_heartbeatTimer. split; [|split; [lia|done]].
    apply (timers_wf_same w); [done| |done]. simpl. apply handleMessage_heartbeatTimer.
  - unfold holds_timer; simpl. split; [by apply (timers_wf_same w)|]. split; [lia|done].
  - unfold holds_timer; simpl. split; [by apply (timers_wf_same w)|]. split; [lia|done].
Qed.

Lemma timers_run evs : ∀ w,
  timers_wf w →
  timers_wf (run w evs)
  ∧ beyond (run w evs) = (beyond w + restarts (held w) evs)%nat.
Proof.
  induction evs as [|ev evs IH]; intros w Hwf; simpl; [split; [done|lia]|].
  destruct (timers_step w ev Hwf) as (Hwf' & Hb & Hh).
  destruct (IH (step w ev) Hwf') as (Hwf'' & Hb').
  split; [done|]. rewrite Hb', Hb, Hh.
  destruct ev; simpl; try lia.
Qed.

End Timers.

(** The timers left armed are counted by the calls of [start()] made while
    the instance already held a timer: after any sequence of calls there is
    one armed timer per such call, plus the one the instance holds, if it
    holds one.  So [stop()] leaves no timer exactly when [start()] was never
    called twice without a [stop()] in between. *)
Theorem armed_timers_are_the_restarts_plus_the_current
    (t0 : Z) (nodeId : string) (cfg : option CM.PartialCommunicationConfig)
    (evs : list CM.Event) :
  let w := CM.run (CM.init t0 nodeId cfg) evs in
  length (CM.intervals (CM.timers w))
  = (CM.restarts false evs + (if CM.holds_timer (CM.comm w) then 1 else 0))%nat
  ∧ (∀ h, CM.heartbeatTimer (CM.comm w) = Some h → h ∈ (CM.intervals (CM.timers w)).*1)
  ∧ CM.holds_timer (CM.comm (CM.step w CM.EvStop)) = false
  ∧ length (CM.intervals (CM.timers (CM.step w CM.EvStop))) = CM.restarts false evs.
Proof.
  intros w.
  assert (Hwf0 : CM.timers_wf (CM.init t0 nodeId cfg)).
  { split; [constructor|]. split; [by intros h ?%elem_of_nil|done]. }
  destruct (timers_run evs _ Hwf0) as (Hwf & Hb). fold w in Hwf, Hb.
  change (CM.holds_timer (CM.comm (CM.init t0 nodeId cfg))) with false in Hb. simpl in Hb.
  destruct (timers_step w CM.EvStop Hwf) as (Hwf' & Hb' & Hh').
  destruct Hwf as (Hnd & Hlt & Hcur).
  assert (Hlen : length (CM.intervals (CM.timers w))
                 = (CM.restarts false evs + (if CM.holds_timer (CM.comm w) then 1 else 0))%nat).
  { unfold CM.holds_timer in *.
    destruct (CM.heartbeatTimer (CM.comm w)) as [h|] eqn:Hh; [|lia].
    pose proof (Hcur h eq_refl) as Hin.
    destruct (CM.intervals (CM.timers w)); [by apply elem_of_nil in Hin|]. simpl in *. lia. }
  split; [done|]. split; [done|]. split; [done|].
  rewrite Hh' in Hb'. lia.
Qed.

(** ** Communication: the peer table *)

(** A heartbeat scan only ever lowers a peer from online to offline and
    leaves [lastSeen] alone; scanning again later gives what the later scan
    alone would have given, so a repeated scan at the same instant changes
    nothing. *)
Theorem heartbeat_scans_compose (now later : Z) (c : CM.Communication) :
  now ≤ later →
  CM.checkPeerStatus later (CM.checkPeerStatus now c) = CM.checkPeerStatus later c
  ∧ CM.checkPeerStatus now (CM.checkPeerStatus now c) = CM.checkPeerStatus now c
  ∧ ∀ p r, JS.Map_get p (CM.peers c) = Some r →
      ∃ r', JS.Map_get p (CM.peers (CM.checkPeerStatus now c)) = Some r'
            ∧ CM.lastSeen r' = CM.lastSeen r
            ∧ (CM.status r = CM.offline → CM.status r' = CM.offline)
            ∧ (CM.status r' = CM.online →
               CM.status r = CM.online
               ∧ now - CM.lastSeen r ≤ 3 * CM.heartbeatInterval (CM.config c)).
Proof.
  intros Hle.
  assert (Hcomp : ∀ a b, a ≤ b →
            CM.checkPeerStatus b (CM.checkPeerStatus a c) = CM.checkPeerStatus b c).
  { intros a b Hab. destruct c as [nid ps hs pm cf hb].
    unfold CM.checkPeerStatus, CM.with_peers; simpl. f_equal.
    unfold JS.Map_map. rewrite <- list_fmap_compose. apply list_fmap_ext.
    intros i [k r] _; simpl. f_equal.
    destruct (Z.ltb_spec (CM.heartbeatInterval cf * 3) (a - CM.lastSeen r)); simpl; [|done].
    destruct (Z.ltb_spec (CM.heartbeatInterval cf * 3) (b - CM.lastSeen r)); [done|lia]. }
  split; [by apply Hcomp|]. split; [by apply Hcomp|].
  intros p r Hget. eexists. split.
  - apply checkPeerStatus_lookup. exists r. split; [done|reflexivity].
  - destruct (Z.ltb_spec (CM.heartbeatInterval (CM.config c) * 3) (now - CM.lastSeen r));
      simpl; repeat split; try done; try lia.
Qed.

Section PeerDirectory.

Import communication.

Lemma step_nodeId w ev : nodeId (comm (step w ev)) = nodeId (comm w).
Proof.
  destruct ev as [ms| | |handle sfx|recipient body ty sfx|messageId|ty handler
                 |message|peerId|peerId]; simpl; try done.
  - unfold stop. by destruct (heartbeatTimer (comm w)).
  - case_bool_decide; [|done]. simpl. unfold heartbeat_tick, sendHeartbeat.
    by case_bool_decide.
  - unfold handleMessage.
    destruct (match messageHandlers (comm w) (type message) with
              | Some handler => match handler message with Returns => None | Throws e => Some e end
              | None => None end); simpl; [done|].
    case_bool_decide; [|done]. unfold updatePeer. by destruct (JS.Map_get _ _).
Qed.

Lemma step_keeps_self_out (self : string) w ev :
  ev ≠ EvRegisterPeer self →
  nodeId (comm w) = self →
  JS.Map_get self (peers (comm w)) = None →
  JS.Map_get self (peers (comm (step w ev))) = None.
Proof.
  intros Hev Hid Hout.
  destruct ev as [ms| | |handle sfx|recipient body ty sfx|messageId|ty handler
                 |message|peerId|peerId]; simpl; try done.
  - unfold stop. by destruct (heartbeatTimer (comm w)).
  - case_bool_decide; [|done]. simpl.
    rewrite Map_get_map. destruct (sendHeartbeat_frame (clock w) sfx (comm w)) as [-> _].
    by rewrite Hout.
  - unfold handleMessage.
    destruct (match messageHandlers (comm w) (type message) with
              | Some handler => match handler message with Returns => None | Throws e => Some e end
              | None => None end); simpl; [done|].
    case_bool_decide as Hfrom; [|done].
    destruct (updatePeer_peers (clock w) (comm w) (from message)) as [-> _].
    rewrite Map_get_set_ne; [done|]. by rewrite Hid in Hfrom.
  - rewrite Map_get_set_ne; [done|]. intros ->. done.
  - rewrite Map_get_delete. by destruct (decide _).
Qed.

End PeerDirectory.

(** The local node never becomes its own peer on the strength of messages:
    unless [registerPeer] is called with the node's own id, that id is not in
    the peer table, whatever is sent, received, scanned, registered or
    unregistered. *)
Theorem local_node_is_never_its_own_peer
    (t0 : Z) (self : string) (cfg : option CM.PartialCommunicationConfig)
    (evs : list CM.Event) :
  Forall (λ ev, ev ≠ CM.EvRegisterPeer self) evs →
  let w := CM.run (CM.init t0 self cfg) evs in
  (self ∉ CM.getPeers (CM.comm w)) ∧ CM.getPeerStatus (CM.comm w) self = None.
Proof.
  intros Hevs w.
  assert (H : CM.nodeId (CM.comm w) = self ∧ JS.Map_get self (CM.peers (CM.comm w)) = None).
  { unfold w. clear w.
    assert (H0 : CM.nodeId (CM.comm (CM.init t0 self cfg)) = self
                 ∧ JS.Map_get self (CM.peers (CM.comm (CM.init t0 self cfg))) = None)
      by done.
    revert H0. generalize (CM.init t0 self cfg).
    induction Hevs as [|ev evs Hev Hevs IH]; intros w0 [Hid Hout]; simpl; [done|].
    apply IH. split; [by rewrite step_nodeId|by apply step_keeps_self_out]. }
  destruct H as [_ Hout]. split.
  - by apply Map_get_None.
  - unfold CM.getPeerStatus. by rewrite Hout.
Qed.

(** The peer directory.  [registerPeer] makes the peer known and online,
    last seen at the time of the call, also when it was known and offline; it
    adds an entry only for a peer not yet known.  [unregisterPeer] reports
    whether the peer was known and makes it unknown.  Neither touches the
    status of another peer. *)
Theorem peer_directory (now : Z) (c : CM.Communication) (p other : string) :
  JS.Map_get p (CM.peers (CM.registerPeer now c p)) = Some (CM.mkPeer now CM.online)
  ∧ CM.getPeerStatus (CM.registerPeer now c p) p = Some CM.online
  ∧ CM.getPeers (CM.registerPeer now c p)
    = (if JS.Map_has p (CM.peers c) then CM.getPeers c else CM.getPeers c ++ [p])
  ∧ ((CM.unregisterPeer c p).1 = true ↔ is_Some (CM.getPeerStatus c p))
  ∧ CM.getPeerStatus (CM.unregisterPeer c p).2 p = None
  ∧ CM.getPeerStatus (CM.unregisterPeer (CM.registerPeer now c p) p).2 p = None
  ∧ (other ≠ p →
     CM.getPeerStatus (CM.registerPeer now c p) other = CM.getPeerStatus c other
     ∧ CM.getPeerStatus (CM.unregisterPeer c p).2 other = CM.getPeerStatus c other).
Proof.
  unfold CM.getPeerStatus, CM.getPeers, CM.registerPeer, CM.unregisterPeer; simpl.
  rewrite Map_get_set_eq. split; [done|]. split; [done|]. split; [apply Map_set_keys|].
  split; [|split; [|split]].
  - rewrite Map_has_spec. by rewrite fmap_is_Some.
  - rewrite Map_get_delete. by rewrite decide_True.
  - rewrite Map_get_delete. by rewrite decide_True.
  - intros Hne. rewrite Map_get_set_ne, Map_get_delete by done.
    by rewrite decide_False.
Qed.

(** [getStats()] of a communication instance: [offlinePeers], computed as
    the total minus the online ones, is the number of peers marked offline;
    the three counts are those of the peer table. *)
Theorem communication_stats_count_the_peer_table (c : CM.Communication) :
  let stats := CM.getStats c in
  CM.Stats.totalPeers stats = length (CM.getPeers c)
  ∧ CM.Stats.onlinePeers stats = length (CM.getOnlinePeers c)
  ∧ CM.Stats.offlinePeers stats
    = Z.of_nat (length (List.filter (λ e, bool_decide (CM.status e.2 = CM.offline)) (CM.peers c)))
  ∧ 0 ≤ CM.Stats.offlinePeers stats ≤ Z.of_nat (CM.Stats.totalPeers stats)
  ∧ CM.Stats.pendingMessages stats = size (CM.pendingMessages c).
Proof.
  intros stats. unfold stats, CM.getStats, CM.getPeers, CM.getOnlinePeers; simpl.
  rewrite !length_fmap.
  assert (Hpart : length (CM.peers c)
                  = (length (List.filter (λ e, bool_decide (CM.status e.2 = CM.online)) (CM.peers c))
                     + length (List.filter (λ e, bool_decide (CM.status e.2 = CM.offline))
                                 (CM.peers c)))%nat).
  { induction (CM.peers c) as [|[k [seen []]] l IH]; simpl; [done| |]; lia. }
  repeat split; try done; lia.
Qed.

(** [send] builds a message from the local node, stamped with the time of
    the call, and holds it as pending under its id until the transmission
    completes; when the id was not pending before, the completion leaves the
    instance exactly as it was before the [send].  Nothing else of the
    instance changes, and with no peer known a heartbeat tick sends
    nothing. *)
Theorem send_holds_the_message_until_transmitted
    (now : Z) (sfx : string) (c : CM.Communication)
    (recipient : CM.Recipient) (body : JS.Value) (ty : option CM.MessageType) :
  let message := (CM.send now sfx c recipient body ty).1 in
  let sent := (CM.send now sfx c recipient body ty).2 in
  CM.from message = CM.nodeId c
  ∧ CM.timestamp message = now
  ∧ CM.type message = default CM.request ty
  ∧ CM.pendingMessages sent !! CM.id message = Some message
  ∧ CM.peers sent = CM.peers c
  ∧ CM.pendingMessages (CM.transmit_done sent (CM.id message)) !! CM.id message = None
  ∧ (CM.pendingMessages c !! CM.id message = None →
     CM.transmit_done sent (CM.id message) = c
     ∧ size (CM.pendingMessages sent) = S (size (CM.pendingMessages c)))
  ∧ (CM.peers c = [] → CM.heartbeat_tick now sfx c = c).
Proof.
  intros message sent. unfold message, sent, CM.send, CM.transmit_done; simpl.
  rewrite lookup_insert_eq, lookup_delete_eq. repeat split; try done.
  - destruct c as [nid ps hs pm cf hb]; unfold CM.with_pendingMessages; simpl in *.
    f_equal. rewrite delete_insert_eq. by apply delete_id.
  - by apply map_size_insert_None.
  - intros Hnil. destruct c as [nid ps hs pm cf hb]; simpl in *. subst ps. done.
Qed.

(** ** TaskScheduler: the result table *)

(** The result table.  A success records the result under the task's id;
    so does a final failure, with the error object, and [isComplete] is true
    in both cases: it does not tell them apart.  A requeue records nothing.
    Other ids keep what they had, and [clearResults] forgets everything. *)
Theorem result_table_records_success_and_final_failure
    (st : TS.Store) (s : TS.TaskScheduler) (task : JS.loc) (result : JS.Value) (other : string) :
  let taskId := CN.Task.id (TS.taskObjs st !!! task) in
  let done_ := (TS.executeTask_then st s task result).1.2 in
  let failed := (TS.executeTask_catch st s task).1.2 in
  TS.getResult done_ taskId = Some result
  ∧ TS.isComplete done_ taskId = true
  ∧ (other ≠ taskId → TS.getResult done_ other = TS.getResult s other
                      ∧ TS.getResult failed other = TS.getResult s other)
  ∧ (CN.Task.priority (TS.taskObjs st !!! task) ≤ - TS.maxRetries (TS.config s) →
     TS.getResult failed taskId = Some (JS.Obj [("error", JS.Str "Max retries exceeded")])
     ∧ TS.isComplete failed taskId = true)
  ∧ (- TS.maxRetries (TS.config s) < CN.Task.priority (TS.taskObjs st !!! task) →
     TS.getResult failed taskId = TS.getResult s taskId)
  ∧ TS.isComplete (TS.clearResults done_) taskId = false.
Proof.
  intros taskId done_ failed.
  unfold done_, failed, TS.executeTask_then, TS.executeTask_catch, TS.getResult, TS.isComplete.
  rewrite scheduleNext_results; simpl. fold taskId.
  rewrite lookup_insert_eq. split; [done|]. split; [done|].
  split; [|split; [|split]].
  - intros Hne. rewrite lookup_insert_ne by done. split; [done|].
    destruct (_ <? _); [by rewrite scheduleNext_results|simpl; by rewrite lookup_insert_ne].
  - intros Hle. apply Z.ltb_ge in Hle. rewrite Hle; simpl. by rewrite lookup_insert_eq.
  - intros Hlt. apply Z.ltb_lt in Hlt. rewrite Hlt. by rewrite scheduleNext_results.
  - done.
Qed.

(** ** The theorems with a precondition, each at a concrete input *)

Lemma least_loaded_picks_first_lightest_witness :
  ∃ r l1 l2,
    TS.selectLeastLoaded (TS.store (scenario.round_robin_setup (λ _, 0%Q))) [0%nat; 1%nat]
      = Some r
    ∧ [0%nat; 1%nat] = l1 ++ r :: l2
    ∧ (∀ x, x ∈ l1 →
         (CN.getLoad (TS.nodeObjs (TS.store (scenario.round_robin_setup (λ _, 0%Q))) !!! r)
          < CN.getLoad (TS.nodeObjs (TS.store (scenario.round_robin_setup (λ _, 0%Q))) !!! x))%Q)
    ∧ (∀ x, x ∈ l2 →
         (CN.getLoad (TS.nodeObjs (TS.store (scenario.round_robin_setup (λ _, 0%Q))) !!! r)
          <= CN.getLoad (TS.nodeObjs (TS.store (scenario.round_robin_setup (λ _, 0%Q))) !!! x))%Q).
Proof.
  apply (least_loaded_picks_first_lightest
           (TS.store (scenario.round_robin_setup (λ _, 0%Q))) [0%nat; 1%nat]).
  discriminate.
Defined.

Lemma pass_without_eligible_node_only_sorts_witness :
  TS.scheduleNext scenario.no_node_store scenario.no_node_scheduler
  = (scenario.no_node_store,
     TS.with_taskQueue
       (TS.sort_by_priority (TS.taskObjs scenario.no_node_store)
          (TS.taskQueue scenario.no_node_scheduler))
       scenario.no_node_scheduler,
     []).
Proof.
  apply (pass_without_eligible_node_only_sorts
           scenario.no_node_store scenario.no_node_scheduler).
  reflexivity.
Defined.


Lemma assignTask_effect_witness :
  let th := [CN.Task.mk "t1" "inference" JS.Undefined 0 0 None] in
  let n := CN.new "n1" "localhost" 8080 0%nat in
  let r := CN.assignTask th n 0%nat in
  let taskId := CN.Task.id (th !!! 0%nat) in
  (r.1.1 = true ↔
     CN.NodeInfo.status (CN.info n) ≠ CN.offline
     ∧ (CN.getTaskCount n < CN.maxConcurrentTasks n)%nat)
  ∧ (r.1.1 = false → r.1.2 = n ∧ r.2 = th)
  ∧ (r.1.1 = true →
       JS.Map_get taskId (CN.tasks r.1.2) = Some 0%nat
       ∧ CN.executeTask_begin r.1.2 taskId = JS.Resolved 0%nat
       ∧ CN.NodeInfo.status (CN.info r.1.2) = CN.busy
       ∧ CN.Task.assignedTo (r.2 !!! 0%nat) = Some (CN.NodeInfo.id (CN.info n))
       ∧ CN.getTaskCount r.1.2
         = (if JS.Map_has taskId (CN.tasks n) then CN.getTaskCount n
            else S (CN.getTaskCount n))
       ∧ ∀ l, l ≠ 0%nat → r.2 !!! l = th !!! l).
Proof.
  apply (assignTask_effect [CN.Task.mk "t1" "inference" JS.Undefined 0 0 None]
           (CN.new "n1" "localhost" 8080 0%nat) 0%nat).
  simpl. constructor.
Defined.

Lemma node_is_busy_while_it_holds_tasks_witness :
  let n := CN.nw_node
             (CN.node_run
                (CN.node_init (CN.new "n1" "localhost" 8080 0%nat)
                   [CN.Task.mk "t1" "inference" JS.Undefined 0 0 None] [[]])
                [CN.OpAssignTask 0%nat; CN.OpExecuteTask "t1"]) in
  CN.NodeInfo.status (CN.info n) ≠ CN.offline
  ∧ ((0 < CN.getTaskCount n)%nat → CN.NodeInfo.status (CN.info n) = CN.busy)
  ∧ (CN.canAcceptTask n = true ↔ (CN.getTaskCount n < 4)%nat).
Proof.
  apply (node_is_busy_while_it_holds_tasks "n1" "localhost" 8080 0%nat
           [CN.Task.mk "t1" "inference" JS.Undefined 0 0 None] [[]]
           [CN.OpAssignTask 0%nat; CN.OpExecuteTask "t1"]).
  reflexivity.
Defined.

Lemma last_completion_resets_status_only_on_success_witness :
  let w := CN.node_run
             (CN.node_init (CN.new "n1" "localhost" 8080 0%nat)
                [CN.Task.mk "t1" "inference" JS.Undefined 0 0 None] [[]])
             scenario.offline_while_running in
  let ok := CN.nw_node (CN.node_step w (CN.OpSettle 0 (JS.Resolved JS.Undefined))) in
  let failed := CN.nw_node (CN.node_step w (CN.OpSettle 0 (JS.Rejected "handler failed"))) in
  CN.NodeInfo.status (CN.info ok) = CN.idle
  ∧ CN.canAcceptTask ok = true
  ∧ CN.getTaskCount failed = 0%nat
  ∧ (CN.getLoad failed == 0)%Q
  ∧ CN.NodeInfo.status (CN.info failed) = CN.NodeInfo.status (CN.info (CN.nw_node w)).
Proof.
  apply (last_completion_resets_status_only_on_success "n1" "localhost" 8080 0%nat
           [CN.Task.mk "t1" "inference" JS.Undefined 0 0 None] [[]]
           scenario.offline_while_running 0%nat "t1" JS.Undefined "handler failed");
    reflexivity.
Defined.

Lemma capability_mutators_witness :
  let ah := [["inference"]] in
  let n := CN.new "n1" "localhost" 8080 0%nat in
  let c := "training" in
  let a := CN.NodeInfo.capabilities (CN.info n) in
  CN.hasCapability (CN.addCapability ah n c) n c = true
  ∧ CN.addCapability (CN.addCapability ah n c) n c = CN.addCapability ah n c
  ∧ (NoDup (ah !!! a) → NoDup (CN.addCapability ah n c !!! a))
  ∧ (CN.hasCapability ah n c = false →
     CN.removeCapability (CN.addCapability ah n c) n c = ah)
  ∧ (NoDup (ah !!! a) → CN.hasCapability (CN.removeCapability ah n c) n c = false)
  ∧ (∀ l1 l2, ah !!! a = l1 ++ c :: l2 → c ∉ l1 →
              CN.removeCapability ah n c !!! a = l1 ++ l2)
  ∧ (CN.hasCapability ah n c = false → CN.removeCapability ah n c = ah)
  ∧ (∀ c', c' ≠ c →
           CN.hasCapability (CN.addCapability ah n c) n c' = CN.hasCapability ah n c'
           ∧ CN.hasCapability (CN.removeCapability ah n c) n c' = CN.hasCapability ah n c').
Proof.
  apply (capability_mutators [["inference"]] (CN.new "n1" "localhost" 8080 0%nat) "training").
  simpl. constructor.
Defined.

Lemma late_completion_frees_the_slot_by_id_witness :
  let w := scenario.retry_in_flight in
  let r := TS.mkRace (TS.mkExecution 0%nat 0%nat "t1") true false in
  let w' := TS.step w (TS.EvHandlerSettles 0 (JS.Resolved JS.Undefined)) in
  TS.scheduler w' = TS.scheduler w
  ∧ TS.taskObjs (TS.store w') = TS.taskObjs (TS.store w)
  ∧ TS.races w' !! 1%nat = Some (TS.mkRace (TS.mkExecution 0%nat 0%nat "t1") false false)
  ∧ length (TS.races w') = length (TS.races w)
  ∧ JS.Map_get (TS.ex_taskId (TS.rc_exec r))
      (CN.tasks (TS.nodeObjs (TS.store w') !!! TS.ex_node (TS.rc_exec r))) = None
  ∧ TS.step w (TS.EvTimeoutFires 0) = w.
Proof.
  apply (late_completion_frees_the_slot_by_id scenario.retry_in_flight 0%nat 1%nat
           (TS.mkRace (TS.mkExecution 0%nat 0%nat "t1") true false)
           (TS.mkRace (TS.mkExecution 0%nat 0%nat "t1") false false)
           (JS.Resolved JS.Undefined)).
  - reflexivity.
  - reflexivity.
  - reflexivity.
  - vm_compute. constructor.
  - reflexivity.
  - discriminate.
Defined.

Lemma heartbeat_scans_compose_witness :
  let c := CM.comm scenario.silent_peer in
  CM.checkPeerStatus 30000 (CM.checkPeerStatus 20000 c) = CM.checkPeerStatus 30000 c
  ∧ CM.checkPeerStatus 20000 (CM.checkPeerStatus 20000 c) = CM.checkPeerStatus 20000 c
  ∧ ∀ p r, JS.Map_get p (CM.peers c) = Some r →
      ∃ r', JS.Map_get p (CM.peers (CM.checkPeerStatus 20000 c)) = Some r'
            ∧ CM.lastSeen r' = CM.lastSeen r
            ∧ (CM.status r = CM.offline → CM.status r' = CM.offline)
            ∧ (CM.status r' = CM.online →
               CM.status r = CM.online
               ∧ 20000 - CM.lastSeen r ≤ 3 * CM.heartbeatInterval (CM.config c)).
Proof.
  apply (heartbeat_scans_compose 20000 30000 (CM.comm scenario.silent_peer)).
  discriminate.
Defined.

Lemma local_node_is_never_its_own_peer_witness :
  let w := CM.run (CM.init 0 "local" None)
             [CM.EvRegisterPeer "p"; CM.EvHandleMessage scenario.request_from_p] in
  ("local" ∉ CM.getPeers (CM.comm w)) ∧ CM.getPeerStatus (CM.comm w) "local" = None.
Proof.
  apply (local_node_is_never_its_own_peer 0 "local" None
           [CM.EvRegisterPeer "p"; CM.EvHandleMessage scenario.request_from_p]).
  repeat constructor; discriminate.
Defined.

Lemma capability_based_prefers_capable_witness :
  let st := TS.store scenario.capability_setup in
  let capable x :=
    CN.hasCapability (TS.arrays st) (TS.nodeObjs st !!! x)
                     (CN.Task.type (TS.taskObjs st !!! 0%nat)) in
  ∃ r, TS.selectByCapability st [0%nat; 1%nat; 2%nat] 0%nat = Some r
       ∧ r ∈ [0%nat; 1%nat; 2%nat] ∧ capable r = true
       ∧ ∀ x, x ∈ [0%nat; 1%nat; 2%nat] → capable x = true →
              (CN.getLoad (TS.nodeObjs st !!! r) <= CN.getLoad (TS.nodeObjs st !!! x))%Q.
Proof.
  apply (proj1 (capability_based_prefers_capable
                  (TS.store scenario.capability_setup) [0%nat; 1%nat; 2%nat] 0%nat)).
  exists 1%nat. split; [right; left|reflexivity].
Defined.

Lemma selectNode_returns_an_eligible_node_witness :
  let st := TS.store scenario.capability_setup in
  let s := TS.scheduler scenario.capability_setup in
  1%nat ∈ TS.availableNodes st s
  ∧ CN.canAcceptTask (TS.nodeObjs st !!! 1%nat) = true
  ∧ ∀ th, (CN.assignTask th (TS.nodeObjs st !!! 1%nat) 0%nat).1.1 = true.
Proof.
  apply (proj1 (selectNode_returns_an_eligible_node
                  (TS.store scenario.capability_setup)
                  (TS.scheduler scenario.capability_setup) 0%nat)
           1%nat (TS.scheduler scenario.capability_setup)
           (TS.store scenario.capability_setup)).
  reflexivity.
Defined.
